(** * Reticulum over D-star: HDLC framing and the serial link

    A shallow embedding of [ReticulumOverDstar.py]: the [HDLC] helper
    (byte stuffing), the byte-at-a-time deframer inside
    [ReticulumOverDstar.read_loop], and the two packet paths
    [process_incoming] and [process_outgoing].

    Python integers are [Z]; a [bytes] object is a [list Z]; [len] is
    the length as a [Z].  The attributes of [self] that the modelled
    methods touch are gathered in the record [iface]; the local
    variables of [read_loop] in the record [locals]. *)

From Stdlib Require Import ZArith List Bool Lia.
Import ListNotations.
Local Open Scope Z_scope.

Definition bytes := list Z.

Definition len {A : Type} (l : list A) : Z := Z.of_nat (length l).

(** ** The HDLC helper class *)

Module HDLC.

Definition FLAG     : Z := 0x7E.
Definition ESC      : Z := 0x7D.
Definition ESC_MASK : Z := 0x20.

(** [data.replace(bytes([old]), new)] for a one-byte pattern: each
    occurrence of [old], left to right, is replaced by [new]. *)
Fixpoint replace (old : Z) (new : bytes) (data : bytes) : bytes :=
  match data with
  | [] => []
  | b :: rest =>
      (if b =? old then new else [b]) ++ replace old new rest
  end.

Definition escape (data : bytes) : bytes :=
  let data := replace ESC [ESC; Z.lxor ESC ESC_MASK] data in
  let data := replace FLAG [ESC; Z.lxor FLAG ESC_MASK] data in
  data.

End HDLC.

(** ** Constants set by [__init__] *)

Definition HW_MTU  : Z := 700.
Definition timeout : Z := 100.

(** ** The deframer of [read_loop] *)

(** The local variables of [read_loop]. *)
Record locals : Type := mkLocals {
  in_frame     : bool;
  escape       : bool;
  data_buffer  : bytes;
  last_read_ms : Z
}.

(** The values [read_loop] starts from; [now] is the clock reading
    [int(time.time()*1000)] taken before the loop. *)
Definition initial (now : Z) : locals :=
  {| in_frame := false; escape := false; data_buffer := []; last_read_ms := now |}.

(** One iteration of the [while] loop sees either a waiting byte, read
    at clock reading [now], or no input at clock reading [now]. *)
Inductive event : Type :=
| Rx (byte : Z) (now : Z)
| NoInput (now : Z).

(** The two consecutive [if]s that restore a masked byte. *)
Definition unmask (byte : Z) : Z :=
  let byte := if byte =? Z.lxor HDLC.FLAG HDLC.ESC_MASK then HDLC.FLAG else byte in
  let byte := if byte =? Z.lxor HDLC.ESC HDLC.ESC_MASK then HDLC.ESC else byte in
  byte.

(** The body of the [while] loop.  The second component is the argument
    of the call [self.process_incoming(data_buffer)] when the iteration
    makes one. *)
Definition loop_body (l : locals) (ev : event) : locals * option bytes :=
  match ev with
  | Rx byte now =>
      let l := {| in_frame := in_frame l; escape := escape l;
                  data_buffer := data_buffer l; last_read_ms := now |} in
      if in_frame l && (byte =? HDLC.FLAG) then
        ({| in_frame := false; escape := escape l;
            data_buffer := data_buffer l; last_read_ms := last_read_ms l |},
         Some (data_buffer l))
      else if byte =? HDLC.FLAG then
        ({| in_frame := true; escape := escape l;
            data_buffer := []; last_read_ms := last_read_ms l |}, None)
      else if in_frame l && (len (data_buffer l) <? HW_MTU) then
        if byte =? HDLC.ESC then
          ({| in_frame := in_frame l; escape := true;
              data_buffer := data_buffer l; last_read_ms := last_read_ms l |}, None)
        else
          let '(byte, esc) :=
            if escape l then (unmask byte, false) else (byte, escape l) in
          ({| in_frame := in_frame l; escape := esc;
              data_buffer := data_buffer l ++ [byte];
              last_read_ms := last_read_ms l |}, None)
      else (l, None)
  | NoInput now =>
      let time_since_last := now - last_read_ms l in
      if (0 <? len (data_buffer l)) && (timeout <? time_since_last) then
        ({| in_frame := false; escape := false;
            data_buffer := []; last_read_ms := last_read_ms l |}, None)
      else (l, None)
  end.

(** The locals after a sequence of iterations, and the buffers handed
    to [process_incoming] on the way, oldest first. *)
Fixpoint run (l : locals) (evs : list event) : locals :=
  match evs with
  | [] => l
  | ev :: evs' => run (fst (loop_body l ev)) evs'
  end.

Fixpoint frames (l : locals) (evs : list event) : list bytes :=
  match evs with
  | [] => []
  | ev :: evs' =>
      let '(l', call) := loop_body l ev in
      match call with
      | Some buf => buf :: frames l' evs'
      | None => frames l' evs'
      end
  end.

(** Bytes arriving one per iteration; [clock i] is the clock reading of
    the [i]-th of these iterations. *)
Fixpoint rx_from (clock : nat -> Z) (i : nat) (data : bytes) : list event :=
  match data with
  | [] => []
  | b :: rest => Rx b (clock i) :: rx_from clock (S i) rest
  end.

Definition wire_frame (payload : bytes) : bytes :=
  [HDLC.FLAG] ++ HDLC.escape payload ++ [HDLC.FLAG].

(** The part of the locals the deframer works on: everything but the
    time of the last read. *)
Definition parser_state (l : locals) : bool * bool * bytes :=
  (in_frame l, escape l, data_buffer l).

(** A frame opened and filled with [n] bytes [0x41]. *)
Definition filled (n : nat) : locals :=
  run (initial 0) (rx_from (fun _ => 0) 0 (HDLC.FLAG :: repeat 0x41 n)).

(** What [HDLC.escape] puts on the wire for one payload byte. *)
Definition stuffed (b : Z) : bytes :=
  if b =? HDLC.ESC then [HDLC.ESC; 0x5D]
  else if b =? HDLC.FLAG then [HDLC.ESC; 0x5E]
  else [b].

(** ** The interface object and its collaborators *)

Inductive exn : Type :=
| DecodeError     (* raised by [base64.b64decode] *)
| SerialError     (* raised by [serial.write] *)
| ShortWrite (written expected : Z)    (* the [IOError] of [process_outgoing] *)
| OwnerError.     (* raised by [self.owner.inbound] *)

Inductive result (A : Type) : Type :=
| Returned (a : A)
| Raised (e : exn).
Arguments Returned {A} a.
Arguments Raised {A} e.

(** What the program takes from outside: the codec of Python's [base64]
    module ([b64decode] raises on input it rejects, here [None]), the
    [write] method of the serial port, which returns the number of bytes
    written or raises, and the owner's [inbound] method, which returns
    or raises ([owner_reply] says which, for the payload it is given). *)
Class Collaborators : Type := {
  b64encode    : bytes -> bytes;
  b64decode    : bytes -> option bytes;
  serial_write : bytes -> result Z;
  owner_reply  : bytes -> result unit
}.

(** The attributes of [self] that the packet paths read or change,
    with the effects on the outside made visible: [inbound] lists the
    payloads passed to [self.owner.inbound], [port_writes] the arguments
    of the calls of [self.serial.write], [error_log] the exceptions
    reported through [RNS.log]; all oldest first. *)
Record iface : Type := mkIface {
  online      : bool;
  rxb         : Z;
  txb         : Z;
  inbound     : list bytes;
  port_writes : list bytes;
  error_log   : list exn
}.

(** Methods run in a state monad over [iface] in which an exception
    keeps the changes made before it was raised. *)
Definition M (A : Type) : Type := iface -> result A * iface.

Definition ret {A : Type} (a : A) : M A := fun self => (Returned a, self).

Definition bind {A B : Type} (c : M A) (k : A -> M B) : M B :=
  fun self =>
    match c self with
    | (Returned a, self') => k a self'
    | (Raised e, self') => (Raised e, self')
    end.

Definition raise {A : Type} (e : exn) : M A := fun self => (Raised e, self).

Definition try_except {A : Type} (body : M A) (handler : exn -> M A) : M A :=
  fun self =>
    match body self with
    | (Returned a, self') => (Returned a, self')
    | (Raised e, self') => handler e self'
    end.

Definition get : M iface := fun self => (Returned self, self).

Definition modify (f : iface -> iface) : M unit := fun self => (Returned tt, f self).

Declare Scope py_scope.
Delimit Scope py_scope with py.
Notation "x <- c ;; k" := (bind c (fun x => k))
  (at level 61, c at next level, right associativity) : py_scope.
Notation "c ;; k" := (bind c (fun _ => k))
  (at level 61, right associativity) : py_scope.
Local Open Scope py_scope.

Definition add_rxb (n : Z) : M unit :=
  modify (fun self =>
    {| online := online self; rxb := rxb self + n; txb := txb self;
       inbound := inbound self; port_writes := port_writes self;
       error_log := error_log self |}).

Definition add_txb (n : Z) : M unit :=
  modify (fun self =>
    {| online := online self; rxb := rxb self; txb := txb self + n;
       inbound := inbound self; port_writes := port_writes self;
       error_log := error_log self |}).

(** [RNS.log(..., RNS.LOG_ERROR)] *)
Definition log_error (e : exn) : M unit :=
  modify (fun self =>
    {| online := online self; rxb := rxb self; txb := txb self;
       inbound := inbound self; port_writes := port_writes self;
       error_log := error_log self ++ [e] |}).

Section Methods.

Context {ext : Collaborators}.

(** [base64.b64decode(data)] *)
Definition base64_b64decode (data : bytes) : M bytes :=
  match b64decode data with
  | Some binary_data => ret binary_data
  | None => raise DecodeError
  end.

(** [self.serial.write(framed_data)] *)
Definition self_serial_write (framed_data : bytes) : M Z :=
  fun self =>
    (serial_write framed_data,
     {| online := online self; rxb := rxb self; txb := txb self;
        inbound := inbound self;
        port_writes := port_writes self ++ [framed_data];
        error_log := error_log self |}).

(** [self.owner.inbound(binary_data, self)]: the payload is passed to
    the owner, whose method returns or raises. *)
Definition owner_inbound (binary_data : bytes) : M unit :=
  fun self =>
    (owner_reply binary_data,
     {| online := online self; rxb := rxb self; txb := txb self;
        inbound := inbound self ++ [binary_data];
        port_writes := port_writes self; error_log := error_log self |}).

Definition process_incoming (data : bytes) : M unit :=
  try_except
    (binary_data <- base64_b64decode data ;;
     add_rxb (len binary_data) ;;
     owner_inbound binary_data)
    (fun e => log_error e).

Definition process_outgoing (data : bytes) : M unit :=
  self <- get ;;
  if online self then
    try_except
      (let base64_data := b64encode data in
       let framed_data := [HDLC.FLAG] ++ HDLC.escape base64_data ++ [HDLC.FLAG] in
       written <- self_serial_write framed_data ;;
       add_txb (len data) ;;
       if negb (written =? len framed_data)
       then raise (ShortWrite written (len framed_data))
       else ret tt)
      (fun e => log_error e ;; raise e)
  else ret tt.

(** One iteration of the [while] loop of [read_loop], with the call
    of [process_incoming] carried out. *)
Definition read_loop_iter (l : locals) (ev : event) : M locals :=
  let '(l', call) := loop_body l ev in
  match call with
  | Some buf => process_incoming buf ;; ret l'
  | None => ret l'
  end.

(** The iterations of [read_loop] over the events [evs]; an exception
    raised in an iteration ends the loop. *)
Fixpoint read_loop (l : locals) (evs : list event) : M locals :=
  match evs with
  | [] => ret l
  | ev :: evs' => l' <- read_loop_iter l ev ;; read_loop l' evs'
  end.

End Methods.

(** The state of a freshly constructed, operational interface. *)
Definition fresh_iface : iface :=
  {| online := true; rxb := 0; txb := 0; inbound := [];
     port_writes := []; error_log := [] |}.

(** ** A concrete codec and two serial ports *)

Module Base64.

(** Modelled from the spec: the alphabet of the printable-safe codec,
    which the program takes from Python's [base64] module and the spec
    describes as a standard radix-64 codec.  The codec of this module
    instantiates [Collaborators] in examples. *)
Definition char (i : Z) : Z :=
  if i <? 26 then 65 + i
  else if i <? 52 then 97 + (i - 26)
  else if i <? 62 then 48 + (i - 52)
  else if i =? 62 then 43 else 47.

(** Modelled from the spec: the inverse of the alphabet; [None] for an
    octet outside it. *)
Definition value (c : Z) : option Z :=
  if (65 <=? c) && (c <=? 90) then Some (c - 65)
  else if (97 <=? c) && (c <=? 122) then Some (c - 71)
  else if (48 <=? c) && (c <=? 57) then Some (c + 4)
  else if c =? 43 then Some 62
  else if c =? 47 then Some 63
  else None.

Definition pad : Z := 61.

(** Modelled from the spec: [encode] of the printable-safe codec,
    three payload bytes to four characters, padded with [=]. *)
Fixpoint encode (data : bytes) : bytes :=
  match data with
  | [] => []
  | [a] =>
      [char (Z.shiftr a 2); char (Z.shiftl (Z.land a 3) 4); pad; pad]
  | [a; b] =>
      [char (Z.shiftr a 2);
       char (Z.lor (Z.shiftl (Z.land a 3) 4) (Z.shiftr b 4));
       char (Z.shiftl (Z.land b 15) 2); pad]
  | a :: b :: c :: rest =>
      [char (Z.shiftr a 2);
       char (Z.lor (Z.shiftl (Z.land a 3) 4) (Z.shiftr b 4));
       char (Z.lor (Z.shiftl (Z.land b 15) 2) (Z.shiftr c 6));
       char (Z.land c 63)] ++ encode rest
  end.

(** Modelled from the spec: [decode] of the printable-safe codec; it
    fails on a wrong alphabet or bad padding. *)
Fixpoint decode (s : bytes) : option bytes :=
  match s with
  | [] => Some []
  | c1 :: c2 :: c3 :: c4 :: rest =>
      match value c1, value c2 with
      | Some v1, Some v2 =>
          let b1 := Z.lor (Z.shiftl v1 2) (Z.shiftr v2 4) in
          if (c3 =? pad) && (c4 =? pad) then
            match rest with [] => Some [b1] | _ => None end
          else
            match value c3 with
            | Some v3 =>
                let b2 := Z.lor (Z.shiftl (Z.land v2 15) 4) (Z.shiftr v3 2) in
                if c4 =? pad then
                  match rest with [] => Some [b1; b2] | _ => None end
                else
                  match value c4 with
                  | Some v4 =>
                      let b3 := Z.lor (Z.shiftl (Z.land v3 3) 6) v4 in
                      option_map (fun tl => b1 :: b2 :: b3 :: tl) (decode rest)
                  | None => None
                  end
            | None => None
            end
      | _, _ => None
      end
  | _ => None
  end.

End Base64.

Module PyBase64.

(** [base64.b64decode(data)] as line 134 calls it, without [validate]:
    the decoder of Python's standard library in its lenient mode.  It
    goes through the octets with the position in the current group of
    four ([quad_pos]), the bits left over ([leftchar]) and the padding
    seen ([pads]): an octet outside the alphabet is skipped; padding
    that completes a group ends the decoding; input that ends inside a
    group is an error. *)
Fixpoint a2b (s : bytes) (quad_pos leftchar pads : Z) (out : bytes)
  : option bytes :=
  match s with
  | [] => if quad_pos =? 0 then Some out else None
  | c :: rest =>
      if c =? Base64.pad then
        if (2 <=? quad_pos) && (4 <=? quad_pos + (pads + 1)) then Some out
        else a2b rest quad_pos leftchar
               (if 2 <=? quad_pos then pads + 1 else pads) out
      else
        match Base64.value c with
        | None => a2b rest quad_pos leftchar pads out
        | Some v =>
            if quad_pos =? 0 then a2b rest 1 v 0 out
            else if quad_pos =? 1 then
              a2b rest 2 (Z.land v 15) 0
                (out ++ [Z.lor (Z.shiftl leftchar 2) (Z.shiftr v 4)])
            else if quad_pos =? 2 then
              a2b rest 3 (Z.land v 3) 0
                (out ++ [Z.lor (Z.shiftl leftchar 4) (Z.shiftr v 2)])
            else
              a2b rest 0 0 0 (out ++ [Z.lor (Z.shiftl leftchar 6) v])
        end
  end.

Definition decode (s : bytes) : option bytes := a2b s 0 0 0 [].

End PyBase64.

(** A port that accepts every byte it is given. *)
Definition good_port : Collaborators :=
  {| b64encode := Base64.encode; b64decode := Base64.decode;
     serial_write := fun data => Returned (len data);
     owner_reply := fun _ => Returned tt |}.

(** A port that accepts at most four bytes per call. *)
Definition short_port : Collaborators :=
  {| b64encode := Base64.encode; b64decode := Base64.decode;
     serial_write := fun data => Returned (Z.min 4 (len data));
     owner_reply := fun _ => Returned tt |}.

(** The same with the decoder as Python has it. *)
Definition python_port : Collaborators :=
  {| b64encode := Base64.encode; b64decode := PyBase64.decode;
     serial_write := fun data => Returned (len data);
     owner_reply := fun _ => Returned tt |}.

(** The same with an owner whose [inbound] raises. *)
Definition failing_owner : Collaborators :=
  {| b64encode := Base64.encode; b64decode := PyBase64.decode;
     serial_write := fun data => Returned (len data);
     owner_reply := fun _ => Raised OwnerError |}.

(** A port whose [write] raises. *)
Definition dead_port : Collaborators :=
  {| b64encode := Base64.encode; b64decode := Base64.decode;
     serial_write := fun _ => Raised SerialError;
     owner_reply := fun _ => Returned tt |}.

(** ** Views of a run of [read_loop] *)

(** The bytes read over a sequence of iterations, in order. *)
Fixpoint received (evs : list event) : bytes :=
  match evs with
  | [] => []
  | Rx b _ :: evs' => b :: received evs'
  | NoInput _ :: evs' => received evs'
  end.

(** The iterations that read a byte. *)
Fixpoint reads (evs : list event) : list event :=
  match evs with
  | [] => []
  | Rx b now :: evs' => Rx b now :: reads evs'
  | NoInput _ :: evs' => reads evs'
  end.

(** No iteration without input comes more than [timeout] after the read
    before it; [last] is the time of the last read so far. *)
Fixpoint polls_fresh (last : Z) (evs : list event) : bool :=
  match evs with
  | [] => true
  | Rx _ now :: evs' => polls_fresh now evs'
  | NoInput now :: evs' => (now - last <=? timeout) && polls_fresh last evs'
  end.



(** What [process_incoming] logs for a decoded payload: the exception
    of the owner's [inbound], when it raises. *)
Definition owner_errors {ext : Collaborators} (payload : bytes) : list exn :=
  match owner_reply payload with
  | Returned _ => []
  | Raised e => [e]
  end.


(** ** Worked examples *)

Example scenario1_encode : Base64.encode [0x41; 0x42; 0x43] = [81; 85; 74; 68].
Proof. reflexivity. Qed.

Example scenario1 :
  frames (initial 0) (rx_from (fun _ => 0) 0 (wire_frame (Base64.encode [0x41; 0x42; 0x43])))
  = [[81; 85; 74; 68]]
  /\ Base64.decode [81; 85; 74; 68] = Some [0x41; 0x42; 0x43].
Proof. split; reflexivity. Qed.

Example scenario2 :
  frames (initial 0) (rx_from (fun _ => 0) 0 [0x7E; 0x7D; 0x5E; 0x7E]) = [[0x7E]].
Proof. reflexivity. Qed.

(** ** Byte stuffing *)

Lemma replace_app old new xs ys :
  HDLC.replace old new (xs ++ ys) = HDLC.replace old new xs ++ HDLC.replace old new ys.
Proof.
  induction xs as [|x xs IH]; simpl; [reflexivity|].
  now rewrite IH, app_assoc.
Qed.

Lemma escape_cons b y : HDLC.escape (b :: y) = stuffed b ++ HDLC.escape y.
Proof.
  unfold HDLC.escape, stuffed. cbn [HDLC.replace].
  rewrite replace_app.
  destruct (Z.eqb_spec b HDLC.ESC) as [->|Hesc]; [reflexivity|].
  cbn [HDLC.replace app].
  destruct (Z.eqb_spec b HDLC.FLAG); reflexivity.
Qed.

Lemma escape_nil : HDLC.escape [] = [].
Proof. reflexivity. Qed.

Lemma stuffed_no_flag b : ~ In HDLC.FLAG (stuffed b).
Proof.
  unfold stuffed.
  destruct (Z.eqb_spec b HDLC.ESC); [cbv; intuition discriminate|].
  destruct (Z.eqb_spec b HDLC.FLAG); [cbv; intuition discriminate|].
  simpl. intros [H|[]]. congruence.
Qed.

(** ** One iteration, case by case *)

Lemma len_app_one {A} (l : list A) (a : A) : len (l ++ [a]) = len l + 1.
Proof. unfold len. rewrite length_app. simpl. lia. Qed.

Lemma rx_close l now :
  in_frame l = true ->
  loop_body l (Rx HDLC.FLAG now) =
  ({| in_frame := false; escape := escape l;
      data_buffer := data_buffer l; last_read_ms := now |},
   Some (data_buffer l)).
Proof. intros H. unfold loop_body. cbn. rewrite H. reflexivity. Qed.

Lemma rx_open l now :
  in_frame l = false ->
  loop_body l (Rx HDLC.FLAG now) =
  ({| in_frame := true; escape := escape l;
      data_buffer := []; last_read_ms := now |}, None).
Proof. intros H. unfold loop_body. cbn. rewrite H. reflexivity. Qed.

Lemma rx_idle l b now :
  in_frame l = false -> b <> HDLC.FLAG ->
  loop_body l (Rx b now) =
  ({| in_frame := false; escape := escape l;
      data_buffer := data_buffer l; last_read_ms := now |}, None).
Proof.
  intros H Hb. unfold loop_body. cbn [in_frame escape data_buffer last_read_ms].
  rewrite H. cbn [andb].
  destruct (Z.eqb_spec b HDLC.FLAG); [contradiction|reflexivity].
Qed.

Lemma rx_full l b now :
  in_frame l = true -> b <> HDLC.FLAG -> HW_MTU <= len (data_buffer l) ->
  loop_body l (Rx b now) =
  ({| in_frame := true; escape := escape l;
      data_buffer := data_buffer l; last_read_ms := now |}, None).
Proof.
  intros H Hb Hfull. unfold loop_body. cbn [in_frame escape data_buffer last_read_ms].
  rewrite H. cbn [andb].
  destruct (Z.eqb_spec b HDLC.FLAG); [contradiction|].
  destruct (Z.ltb_spec (len (data_buffer l)) HW_MTU); [lia|reflexivity].
Qed.

Lemma rx_esc l now :
  in_frame l = true -> len (data_buffer l) < HW_MTU ->
  loop_body l (Rx HDLC.ESC now) =
  ({| in_frame := true; escape := true;
      data_buffer := data_buffer l; last_read_ms := now |}, None).
Proof.
  intros H Hlt. unfold loop_body. cbn [in_frame escape data_buffer last_read_ms].
  rewrite H. cbn [andb].
  change (HDLC.ESC =? HDLC.FLAG) with false. cbv iota.
  destruct (Z.ltb_spec (len (data_buffer l)) HW_MTU); [|lia].
  rewrite Z.eqb_refl. reflexivity.
Qed.

Lemma rx_store l b now :
  in_frame l = true -> b <> HDLC.FLAG -> b <> HDLC.ESC ->
  len (data_buffer l) < HW_MTU ->
  loop_body l (Rx b now) =
  ({| in_frame := true; escape := false;
      data_buffer := data_buffer l ++ [if escape l then unmask b else b];
      last_read_ms := now |}, None).
Proof.
  intros H Hb He Hlt. unfold loop_body. cbn [in_frame escape data_buffer last_read_ms].
  rewrite H. cbn [andb].
  destruct (Z.eqb_spec b HDLC.FLAG); [contradiction|].
  destruct (Z.ltb_spec (len (data_buffer l)) HW_MTU); [|lia].
  destruct (Z.eqb_spec b HDLC.ESC); [contradiction|].
  destruct (escape l); reflexivity.
Qed.

(** ** Sequences of iterations *)

Lemma run_app l evs1 evs2 : run l (evs1 ++ evs2) = run (run l evs1) evs2.
Proof. revert l. induction evs1 as [|ev evs1 IH]; intros l; simpl; auto. Qed.

Lemma frames_app l evs1 evs2 :
  frames l (evs1 ++ evs2) = frames l evs1 ++ frames (run l evs1) evs2.
Proof.
  revert l. induction evs1 as [|ev evs1 IH]; intros l; simpl; [reflexivity|].
  destruct (loop_body l ev) as [l' [buf|]]; simpl; rewrite IH; reflexivity.
Qed.

Lemma rx_from_app clock i xs ys :
  rx_from clock i (xs ++ ys) =
  rx_from clock i xs ++ rx_from clock (i + length xs)%nat ys.
Proof.
  revert i. induction xs as [|x xs IH]; intros i; simpl.
  - now rewrite Nat.add_0_r.
  - rewrite IH. now replace (S i + length xs)%nat with (i + S (length xs))%nat by lia.
Qed.

(** Once the buffer holds [HW_MTU] bytes, anything but a flag leaves the
    parser where it is. *)
Lemma rx_overflow data : forall l clock i,
  in_frame l = true -> HW_MTU <= len (data_buffer l) -> ~ In HDLC.FLAG data ->
  frames l (rx_from clock i data) = [] /\
  parser_state (run l (rx_from clock i data)) = parser_state l.
Proof.
  induction data as [|b data IH]; intros l clock i Hin Hfull Hno;
    cbn [rx_from frames run].
  - split; reflexivity.
  - assert (Hb : b <> HDLC.FLAG) by (intros ->; apply Hno; now left).
    rewrite (rx_full l b (clock i) Hin Hb Hfull). cbn [fst].
    destruct (IH {| in_frame := true; escape := escape l;
                    data_buffer := data_buffer l; last_read_ms := clock i |}
                 clock (S i) eq_refl Hfull) as [Hf Hs].
    { intros H; apply Hno; now right. }
    split; [exact Hf|]. rewrite Hs. unfold parser_state; cbn. now rewrite Hin.
Qed.

(** A stuffed payload byte, read with room in the buffer, is stored as
    the payload byte. *)
Lemma rx_stuffed b l clock i :
  in_frame l = true -> escape l = false -> len (data_buffer l) < HW_MTU ->
  frames l (rx_from clock i (stuffed b)) = [] /\
  parser_state (run l (rx_from clock i (stuffed b))) =
  (true, false, data_buffer l ++ [b]).
Proof.
  intros Hin Hesc Hlt. unfold stuffed.
  destruct (Z.eqb_spec b HDLC.ESC) as [->|He].
  - cbn [rx_from frames run].
    rewrite (rx_esc l (clock i) Hin Hlt). cbn [fst].
    rewrite rx_store; cbn [in_frame escape data_buffer]; easy.
  - destruct (Z.eqb_spec b HDLC.FLAG) as [->|Hf].
    + cbn [rx_from frames run].
      rewrite (rx_esc l (clock i) Hin Hlt). cbn [fst].
      rewrite rx_store; cbn [in_frame escape data_buffer]; easy.
    + cbn [rx_from frames run].
      rewrite (rx_store l b (clock i) Hin Hf He Hlt). cbn [fst].
      rewrite Hesc. split; reflexivity.
Qed.

Lemma firstn_full {A} (n : nat) (xs ys : list A) :
  length xs = n -> firstn n (xs ++ ys) = xs.
Proof.
  intros <-. rewrite firstn_app, Nat.sub_diag, firstn_all. simpl.
  now rewrite app_nil_r.
Qed.

(** Reading an escaped payload inside a frame: nothing is handed over,
    and the buffer grows by the payload, cut at [HW_MTU] bytes. *)
Lemma rx_escaped y : forall l clock i,
  in_frame l = true -> escape l = false -> len (data_buffer l) <= HW_MTU ->
  frames l (rx_from clock i (HDLC.escape y)) = [] /\
  parser_state (run l (rx_from clock i (HDLC.escape y))) =
  (true, false, firstn (Z.to_nat HW_MTU) (data_buffer l ++ y)).
Proof.
  induction y as [|b y IH]; intros l clock i Hin Hesc Hle.
  - rewrite escape_nil, app_nil_r. cbn [rx_from frames run].
    split; [reflexivity|]. unfold parser_state. rewrite Hin, Hesc.
    rewrite firstn_all2; [reflexivity|]. unfold len in Hle. lia.
  - rewrite escape_cons, rx_from_app, frames_app, run_app.
    destruct (Z.eq_dec (len (data_buffer l)) HW_MTU) as [Hfull|Hroom].
    + destruct (rx_overflow (stuffed b) l clock i Hin) as [Hf Hs];
        [lia | apply stuffed_no_flag |].
      set (l1 := run l (rx_from clock i (stuffed b))) in *.
      unfold parser_state in Hs. injection Hs as Hin1 Hesc1 Hbuf1.
      destruct (IH l1 clock (i + length (stuffed b))%nat) as [Hf2 Hs2];
        [congruence | congruence | rewrite Hbuf1; lia |].
      rewrite Hf, Hf2, Hs2, Hbuf1. split; [reflexivity|].
      rewrite !firstn_full; [reflexivity | |]; unfold len in Hfull; lia.
    + destruct (rx_stuffed b l clock i Hin Hesc) as [Hf Hs]; [lia|].
      set (l1 := run l (rx_from clock i (stuffed b))) in *.
      unfold parser_state in Hs. injection Hs as Hin1 Hesc1 Hbuf1.
      destruct (IH l1 clock (i + length (stuffed b))%nat) as [Hf2 Hs2];
        [assumption | assumption | rewrite Hbuf1, len_app_one; lia |].
      rewrite Hf, Hf2, Hs2, Hbuf1, <- app_assoc. split; reflexivity.
Qed.

(** Outside a frame, anything but a flag is dropped. *)
Lemma rx_junk junk : forall l clock i,
  in_frame l = false -> ~ In HDLC.FLAG junk ->
  frames l (rx_from clock i junk) = [] /\
  parser_state (run l (rx_from clock i junk)) = parser_state l.
Proof.
  induction junk as [|b junk IH]; intros l clock i Hout Hno;
    cbn [rx_from frames run].
  - split; reflexivity.
  - assert (Hb : b <> HDLC.FLAG) by (intros ->; apply Hno; now left).
    rewrite (rx_idle l b (clock i) Hout Hb). cbn [fst].
    destruct (IH {| in_frame := false; escape := escape l;
                    data_buffer := data_buffer l; last_read_ms := clock i |}
                 clock (S i) eq_refl) as [Hf Hs].
    { intros H; apply Hno; now right. }
    split; [exact Hf|]. rewrite Hs. unfold parser_state; cbn. now rewrite Hout.
Qed.

(** A whole frame read from outside a frame: one buffer is handed over,
    the payload cut at [HW_MTU] bytes. *)
Lemma rx_wire_frame y l clock i :
  in_frame l = false -> escape l = false ->
  frames l (rx_from clock i (wire_frame y)) = [firstn (Z.to_nat HW_MTU) y] /\
  parser_state (run l (rx_from clock i (wire_frame y))) =
  (false, false, firstn (Z.to_nat HW_MTU) y).
Proof.
  intros Hout Hesc. unfold wire_frame.
  change ([HDLC.FLAG] ++ HDLC.escape y ++ [HDLC.FLAG])
    with (HDLC.FLAG :: (HDLC.escape y ++ [HDLC.FLAG])).
  cbn [rx_from frames run].
  rewrite (rx_open l (clock i) Hout). cbn [fst].
  set (l0 := {| in_frame := true; escape := escape l; data_buffer := [];
                last_read_ms := clock i |}).
  rewrite rx_from_app, frames_app, run_app.
  destruct (rx_escaped y l0 clock (S i) eq_refl Hesc) as [Hf Hs];
    [cbv; discriminate|].
  set (l1 := run l0 (rx_from clock (S i) (HDLC.escape y))) in *.
  unfold parser_state in Hs. cbn [data_buffer l0 app] in Hs.
  injection Hs as Hin1 Hesc1 Hbuf1.
  rewrite Hf. cbn [rx_from frames run app].
  rewrite (rx_close l1 _ Hin1). cbn [fst].
  unfold parser_state. cbn. rewrite Hesc1, Hbuf1. split; reflexivity.
Qed.

(** Every iteration keeps the buffer within [HW_MTU] bytes. *)
Lemma loop_body_bounded l ev :
  len (data_buffer l) <= HW_MTU ->
  len (data_buffer (fst (loop_body l ev))) <= HW_MTU.
Proof.
  intros Hle. destruct ev as [b now|now]; unfold loop_body;
    cbn [in_frame escape data_buffer last_read_ms].
  - destruct (in_frame l && (b =? HDLC.FLAG)); [exact Hle|].
    destruct (b =? HDLC.FLAG); [cbv; discriminate|].
    destruct (in_frame l); cbn [andb]; [|exact Hle].
    destruct (Z.ltb_spec (len (data_buffer l)) HW_MTU); [|exact Hle].
    destruct (b =? HDLC.ESC); [exact Hle|].
    destruct (escape l); cbn [fst data_buffer]; rewrite len_app_one; lia.
  - destruct ((0 <? len (data_buffer l)) && (timeout <? now - last_read_ms l));
      [cbv; discriminate | exact Hle].
Qed.

Lemma run_bounded evs : forall l,
  len (data_buffer l) <= HW_MTU -> len (data_buffer (run l evs)) <= HW_MTU.
Proof.
  induction evs as [|ev evs IH]; intros l Hle; cbn [run]; [exact Hle|].
  apply IH, loop_body_bounded, Hle.
Qed.

(** ** The claims about the deframer *)

(** C1, as stated, fails: after the flag that closes the frame [0x41],
    the byte [0x42] is not collected into a new frame.  It leaves the
    deframer outside a frame, and the flag after it hands nothing over. *)
Lemma flag_does_not_reopen :
  let clock := fun _ : nat => 0 in
  let l := run (initial 0) (rx_from clock 0 [0x7E; 0x41; 0x7E]) in
  in_frame (run l [Rx 0x42 0]) = false /\
  data_buffer (run l [Rx 0x42 0]) <> [0x42] /\
  frames (initial 0) (rx_from clock 0 [0x7E; 0x41; 0x7E; 0x42; 0x7E]) = [[0x41]].
Proof. cbv. repeat split; discriminate. Qed.

(** C1, amended: in a frame, the flag hands the buffer over and leaves
    the deframer outside any frame; the bytes that follow, up to the next
    flag, are dropped; that next flag opens a frame with an empty
    buffer. *)
Theorem flag_closes_frame l now junk clock i :
  in_frame l = true -> ~ In HDLC.FLAG junk ->
  let l1 := fst (loop_body l (Rx HDLC.FLAG now)) in
  snd (loop_body l (Rx HDLC.FLAG now)) = Some (data_buffer l) /\
  in_frame l1 = false /\
  frames l1 (rx_from clock i (junk ++ [HDLC.FLAG])) = [] /\
  in_frame (run l1 (rx_from clock i junk)) = false /\
  in_frame (run l1 (rx_from clock i (junk ++ [HDLC.FLAG]))) = true /\
  data_buffer (run l1 (rx_from clock i (junk ++ [HDLC.FLAG]))) = [].
Proof.
  intros Hin Hno l1. subst l1. rewrite (rx_close l now Hin). cbn [fst snd].
  set (l1 := {| in_frame := false; escape := escape l;
                data_buffer := data_buffer l; last_read_ms := now |}).
  destruct (rx_junk junk l1 clock i eq_refl Hno) as [Hf Hs].
  unfold parser_state in Hs. injection Hs as Hin1 _ _.
  rewrite rx_from_app, frames_app, run_app, Hf.
  cbn [rx_from frames run app].
  rewrite (rx_open _ _ Hin1). cbn [fst in_frame data_buffer].
  repeat split; assumption.
Qed.

Lemma flag_closes_frame_witness :
  let l := run (initial 0) [Rx 0x7E 1; Rx 0x41 2] in
  let l1 := fst (loop_body l (Rx HDLC.FLAG 3)) in
  snd (loop_body l (Rx HDLC.FLAG 3)) = Some [0x41] /\
  in_frame l1 = false /\
  frames l1 (rx_from Z.of_nat 4 ([0x42; 0x43] ++ [HDLC.FLAG])) = [] /\
  in_frame (run l1 (rx_from Z.of_nat 4 [0x42; 0x43])) = false /\
  in_frame (run l1 (rx_from Z.of_nat 4 ([0x42; 0x43] ++ [HDLC.FLAG]))) = true /\
  data_buffer (run l1 (rx_from Z.of_nat 4 ([0x42; 0x43] ++ [HDLC.FLAG]))) = [].
Proof.
  apply (flag_closes_frame (run (initial 0) [Rx 0x7E 1; Rx 0x41 2]) 3
           [0x42; 0x43] Z.of_nat 4).
  - reflexivity.
  - cbv. intuition discriminate.
Defined.

(** C2, as stated, fails at the two reserved octets.  With the escape
    flag set and [0x41] in the buffer, a raw flag closes the frame and
    is not stored; a second escape octet is not stored either and the
    escape flag stays set. *)
Lemma escaped_flag_not_stored :
  let l := run (initial 0) (rx_from (fun _ => 0) 0 [0x7E; 0x41; 0x7D]) in
  (in_frame l = true /\ escape l = true /\ data_buffer l = [0x41]) /\
  loop_body l (Rx 0x7E 0) =
    ({| in_frame := false; escape := true; data_buffer := [0x41];
        last_read_ms := 0 |}, Some [0x41]) /\
  parser_state (fst (loop_body l (Rx 0x7E 0))) <> (true, false, [0x41; unmask 0x7E]) /\
  parser_state (fst (loop_body l (Rx 0x7D 0))) = (true, true, [0x41]).
Proof. cbv. repeat split; discriminate. Qed.

(** C2, amended: with the escape flag set inside a frame and room in
    the buffer, every octet other than the flag and the escape octet is
    unmasked ([0x5E] to [0x7E], [0x5D] to [0x7D], anything else
    unchanged), appended, and the escape flag is cleared; the flag
    closes the frame instead, handing over the buffer as it is. *)
Theorem escaped_byte_unmasked l b now :
  in_frame l = true -> escape l = true ->
  (b <> HDLC.FLAG -> b <> HDLC.ESC -> len (data_buffer l) < HW_MTU ->
   loop_body l (Rx b now) =
     ({| in_frame := true; escape := false;
         data_buffer := data_buffer l ++ [unmask b]; last_read_ms := now |},
      None)) /\
  unmask 0x5E = 0x7E /\ unmask 0x5D = 0x7D /\
  (b <> 0x5E -> b <> 0x5D -> unmask b = b) /\
  snd (loop_body l (Rx HDLC.FLAG now)) = Some (data_buffer l) /\
  in_frame (fst (loop_body l (Rx HDLC.FLAG now))) = false /\
  data_buffer (fst (loop_body l (Rx HDLC.FLAG now))) = data_buffer l.
Proof.
  intros Hin Hesc. split; [|split; [|split; [|split]]].
  - intros Hb He Hlt. rewrite (rx_store l b now Hin Hb He Hlt), Hesc. reflexivity.
  - reflexivity.
  - reflexivity.
  - intros H1 H2. unfold unmask.
    change (Z.lxor HDLC.FLAG HDLC.ESC_MASK) with 0x5E.
    change (Z.lxor HDLC.ESC HDLC.ESC_MASK) with 0x5D.
    destruct (Z.eqb_spec b 0x5E); [contradiction|].
    destruct (Z.eqb_spec b 0x5D); [contradiction|reflexivity].
  - rewrite (rx_close l now Hin). repeat split.
Qed.

Lemma escaped_byte_unmasked_witness :
  let l := run (initial 0) [Rx 0x7E 1; Rx 0x41 2; Rx 0x7D 3] in
  loop_body l (Rx 0x5E 4) =
    ({| in_frame := true; escape := false;
        data_buffer := [0x41] ++ [unmask 0x5E]; last_read_ms := 4 |}, None).
Proof.
  refine (proj1 (escaped_byte_unmasked
                   (run (initial 0) [Rx 0x7E 1; Rx 0x41 2; Rx 0x7D 3]) 0x5E 4
                   eq_refl eq_refl) _ _ _).
  - discriminate.
  - discriminate.
  - reflexivity.
Defined.

(** C3: whatever the loop reads or waits through, the buffer never
    holds more than [HW_MTU] = 700 bytes; with the buffer at the bound
    inside a frame, a byte other than the flag is dropped and the
    deframer stays in the frame; and after any number of such bytes the
    flag still closes the frame, handing over the buffer of [HW_MTU]
    bytes. *)
Theorem buffer_never_exceeds_mtu :
  HW_MTU = 700 /\
  (forall now evs, len (data_buffer (run (initial now) evs)) <= HW_MTU) /\
  (forall l b now,
     in_frame l = true -> len (data_buffer l) = HW_MTU -> b <> HDLC.FLAG ->
     loop_body l (Rx b now) =
       ({| in_frame := true; escape := escape l;
           data_buffer := data_buffer l; last_read_ms := now |}, None)) /\
  (forall l dropped clock i,
     in_frame l = true -> len (data_buffer l) = HW_MTU ->
     ~ In HDLC.FLAG dropped ->
     frames l (rx_from clock i (dropped ++ [HDLC.FLAG])) = [data_buffer l]).
Proof.
  split; [reflexivity|]. split; [|split].
  - intros now evs. apply run_bounded. cbv. discriminate.
  - intros l b now Hin Hfull Hb. apply rx_full; [assumption | assumption | lia].
  - intros l dropped clock i Hin Hfull Hno.
    destruct (rx_overflow dropped l clock i Hin) as [Hf Hs]; [lia | exact Hno |].
    unfold parser_state in Hs. injection Hs as Hin1 _ Hbuf1.
    rewrite rx_from_app, frames_app, Hf. cbn [rx_from frames app].
    rewrite rx_close by congruence. now rewrite Hbuf1.
Qed.

Lemma buffer_never_exceeds_mtu_witness :
  len (data_buffer (run (initial 0) (rx_from Z.of_nat 0 (HDLC.FLAG :: repeat 0x42 800))))
    <= HW_MTU /\
  loop_body (filled 700) (Rx 0x42 5) =
    ({| in_frame := true; escape := escape (filled 700);
        data_buffer := data_buffer (filled 700); last_read_ms := 5 |}, None) /\
  frames (filled 700) (rx_from Z.of_nat 0 ([0x42; 0x7D; 0x43] ++ [HDLC.FLAG]))
    = [data_buffer (filled 700)].
Proof.
  destruct buffer_never_exceeds_mtu as (_ & Hinv & Hdrop & Hclose).
  split; [apply Hinv|]. split.
  - apply Hdrop; [vm_compute; reflexivity | vm_compute; reflexivity | discriminate].
  - apply Hclose; [vm_compute; reflexivity | vm_compute; reflexivity |].
    cbv. intuition discriminate.
Defined.

(** C4, as stated, fails for a payload longer than [HW_MTU]: of 701
    bytes only the first 700 reach the completed frame. *)
Lemma long_payload_truncated :
  frames (initial 0) (rx_from (fun _ => 0) 0 (wire_frame (repeat 0x41 701)))
  <> [repeat 0x41 701].
Proof.
  destruct (rx_wire_frame (repeat 0x41 701) (initial 0) (fun _ => 0) 0%nat
              eq_refl eq_refl) as [Hf _].
  rewrite Hf. intros H. apply (f_equal (map (@length Z))) in H.
  vm_compute in H. discriminate.
Qed.

(** C4, amended: for every byte sequence [y] of at most [HW_MTU] bytes,
    a deframer that is outside a frame with no escape pending (as
    [read_loop] starts) and is fed the flag, [escape(y)] and the flag,
    one octet per iteration, hands over exactly one buffer, equal to
    [y]. *)
Theorem escape_deframe_roundtrip y l clock i :
  in_frame l = false -> escape l = false -> len y <= HW_MTU ->
  frames l (rx_from clock i ([HDLC.FLAG] ++ HDLC.escape y ++ [HDLC.FLAG])) = [y].
Proof.
  intros Hout Hesc Hle.
  destruct (rx_wire_frame y l clock i Hout Hesc) as [Hf _].
  unfold wire_frame in Hf. rewrite Hf, firstn_all2; [reflexivity|].
  unfold len in Hle. lia.
Qed.

Lemma escape_deframe_roundtrip_witness :
  frames (initial 0)
    (rx_from Z.of_nat 0
       ([HDLC.FLAG] ++ HDLC.escape [0x7E; 0x41; 0x7D; 0x5E] ++ [HDLC.FLAG]))
  = [[0x7E; 0x41; 0x7D; 0x5E]].
Proof.
  apply (escape_deframe_roundtrip [0x7E; 0x41; 0x7D; 0x5E] (initial 0) Z.of_nat 0).
  - reflexivity.
  - reflexivity.
  - cbv. discriminate.
Defined.

(** ** The packet paths *)

Section PacketPaths.

Context {ext : Collaborators}.

Lemma process_incoming_decoded data payload self :
  b64decode data = Some payload ->
  process_incoming data self =
  (Returned tt,
   {| online := online self; rxb := rxb self + len payload; txb := txb self;
      inbound := inbound self ++ [payload];
      port_writes := port_writes self;
      error_log := error_log self ++ owner_errors payload |}).
Proof.
  intros H. unfold process_incoming, try_except, bind, base64_b64decode.
  rewrite H. unfold ret, add_rxb, modify, owner_inbound, owner_errors.
  destruct (owner_reply payload) as [[]|e]; cbn; [|reflexivity].
  now rewrite app_nil_r.
Qed.

Lemma process_incoming_rejected data self :
  b64decode data = None ->
  process_incoming data self =
  (Returned tt,
   {| online := online self; rxb := rxb self; txb := txb self;
      inbound := inbound self; port_writes := port_writes self;
      error_log := error_log self ++ [DecodeError] |}).
Proof.
  intros H. unfold process_incoming, try_except, bind, base64_b64decode.
  rewrite H. reflexivity.
Qed.

(** Iterations that hand nothing to [process_incoming] leave [self]
    alone. *)
Lemma read_loop_silent evs : forall l self,
  frames l evs = [] -> read_loop l evs self = (Returned (run l evs), self).
Proof.
  induction evs as [|ev evs IH]; intros l self Hf; cbn [read_loop run].
  - reflexivity.
  - cbn [frames] in Hf. unfold bind, read_loop_iter.
    destruct (loop_body l ev) as [l' [buf|]]; [discriminate|].
    cbn [fst]. unfold ret. apply IH, Hf.
Qed.

Lemma read_loop_app evs1 evs2 l self :
  read_loop l (evs1 ++ evs2) self =
  (l' <- read_loop l evs1 ;; read_loop l' evs2) self.
Proof.
  revert l self. induction evs1 as [|ev evs1 IH]; intros l self;
    cbn [read_loop app]; [reflexivity|].
  unfold bind in *.
  destruct (read_loop_iter l ev self) as [[l'|e] self']; [|reflexivity].
  apply IH.
Qed.

(** A whole frame read from outside a frame reaches [process_incoming]
    once, at its closing flag. *)
Lemma read_loop_wire_frame y l clock i self :
  in_frame l = false -> escape l = false -> len y <= HW_MTU ->
  read_loop l (rx_from clock i (wire_frame y)) self =
  (Returned (run l (rx_from clock i (wire_frame y))),
   snd (process_incoming y self)).
Proof.
  intros Hout Hesc Hle.
  assert (Hy : firstn (Z.to_nat HW_MTU) y = y)
    by (apply firstn_all2; unfold len in Hle; lia).
  unfold wire_frame.
  change ([HDLC.FLAG] ++ HDLC.escape y ++ [HDLC.FLAG])
    with ((HDLC.FLAG :: HDLC.escape y) ++ [HDLC.FLAG]).
  rewrite rx_from_app, read_loop_app, run_app. unfold bind at 1.
  set (body := rx_from clock i (HDLC.FLAG :: HDLC.escape y)).
  assert (Hbody : frames l body = [] /\ parser_state (run l body) = (true, false, y)).
  { subst body. cbn [rx_from frames run].
    rewrite (rx_open l (clock i) Hout). cbn [fst].
    destruct (rx_escaped y
                {| in_frame := true; escape := escape l; data_buffer := [];
                   last_read_ms := clock i |} clock (S i) eq_refl Hesc)
      as [Hf Hs]; [cbv; discriminate|].
    cbn [data_buffer app] in Hs. rewrite Hy in Hs. split; assumption. }
  destruct Hbody as [Hf Hs]. rewrite (read_loop_silent body l self Hf).
  unfold parser_state in Hs. injection Hs as Hin1 _ Hbuf1.
  cbn [rx_from read_loop run]. unfold read_loop_iter.
  rewrite (rx_close _ _ Hin1), Hbuf1. cbn [fst]. unfold bind, ret.
  destruct (b64decode y) as [payload|] eqn:Hdec.
  - rewrite (process_incoming_decoded y payload self Hdec). reflexivity.
  - rewrite (process_incoming_rejected y self Hdec). reflexivity.
Qed.

Lemma no_input_stale l now :
  data_buffer l <> [] -> timeout < now - last_read_ms l ->
  loop_body l (NoInput now) =
  ({| in_frame := false; escape := false; data_buffer := [];
      last_read_ms := last_read_ms l |}, None).
Proof.
  intros Hne Hlate. unfold loop_body.
  destruct (Z.ltb_spec 0 (len (data_buffer l))) as [_|Hz].
  - destruct (Z.ltb_spec timeout (now - last_read_ms l)); [reflexivity|lia].
  - destruct (data_buffer l); [contradiction|]. unfold len in Hz. simpl in Hz. lia.
Qed.

End PacketPaths.

(** ** The claims about the packet paths *)

(** C5, as stated, fails: the flag right after an opening flag hands the
    empty buffer to [process_incoming], and with the radix-64 codec the
    empty payload it decodes to is delivered to the owner. *)
Lemma empty_frame_delivered :
  snd (loop_body (run (initial 0) [Rx 0x7E 0]) (Rx 0x7E 0)) = Some [] /\
  inbound (snd (@read_loop good_port (initial 0) [Rx 0x7E 0; Rx 0x7E 0] fresh_iface))
  = [[]].
Proof. split; reflexivity. Qed.

(** C5, amended: in a frame, the flag hands the buffer to
    [process_incoming] whether or not it is empty; whatever payload the
    codec decodes it to, the empty one included, is delivered to the
    owner and counted in [rxb]. *)
Theorem flag_delivers_buffer {ext : Collaborators} l now self payload :
  in_frame l = true -> b64decode (data_buffer l) = Some payload ->
  snd (loop_body l (Rx HDLC.FLAG now)) = Some (data_buffer l) /\
  read_loop_iter l (Rx HDLC.FLAG now) self =
  (Returned {| in_frame := false; escape := escape l;
               data_buffer := data_buffer l; last_read_ms := now |},
   {| online := online self; rxb := rxb self + len payload; txb := txb self;
      inbound := inbound self ++ [payload];
      port_writes := port_writes self;
      error_log := error_log self ++ owner_errors payload |}).
Proof.
  intros Hin Hdec. unfold read_loop_iter. rewrite (rx_close l now Hin).
  split; [reflexivity|]. unfold bind, ret.
  rewrite (process_incoming_decoded _ payload self Hdec). reflexivity.
Qed.

Lemma flag_delivers_buffer_witness :
  let l := run (initial 0) [Rx 0x7E 1] in
  snd (loop_body l (Rx HDLC.FLAG 2)) = Some [] /\
  @read_loop_iter good_port l (Rx HDLC.FLAG 2) fresh_iface =
  (Returned {| in_frame := false; escape := false; data_buffer := [];
               last_read_ms := 2 |},
   {| online := true; rxb := 0 + len (@nil Z); txb := 0;
      inbound := [] ++ [[]]; port_writes := []; error_log := [] |}).
Proof.
  apply (@flag_delivers_buffer good_port (run (initial 0) [Rx 0x7E 1]) 2
           fresh_iface []); reflexivity.
Defined.

(** C6, as stated, fails: the loop looks at the time since the last
    read only in an iteration that finds no input, and sleeps after it.
    Here [QUJD] is in the buffer since the read at 40 ms, the loop finds
    no input at 40 and at 120 ms, and the next byte is read at 200 ms,
    160 ms after the last one: nothing is reset, the flag of the new
    frame closes the old one, the abandoned [QUJD] is decoded and
    delivered, and the new frame [WFla] is lost. *)
Lemma late_read_hides_timeout :
  let before := [Rx 0x7E 0; Rx 81 10; Rx 85 20; Rx 74 30; Rx 68 40;
                 NoInput 40; NoInput 120] in
  let after := [Rx 0x7E 200; Rx 87 201; Rx 70 202; Rx 108 203; Rx 97 204;
                Rx 0x7E 205] in
  (in_frame (run (initial 0) before) = true /\
   data_buffer (run (initial 0) before) = [81; 85; 74; 68] /\
   last_read_ms (run (initial 0) before) = 40 /\
   timeout < 200 - 40) /\
  received after = wire_frame (Base64.encode [0x58; 0x59; 0x5A]) /\
  inbound (snd (@read_loop python_port (initial 0) (before ++ after) fresh_iface))
  = [[0x41; 0x42; 0x43]].
Proof. cbv. repeat split. Qed.

(** C6, amended: when an iteration of the loop finds no input, the
    buffer is not empty and the clock it reads is more than [timeout]
    milliseconds after the last read, the buffer is cleared and both
    flags are reset; a complete frame that arrives afterwards is decoded
    and delivered, and nothing of the abandoned data is. *)
Theorem stale_frame_discarded {ext : Collaborators} l now clock i self payload :
  data_buffer l <> [] -> timeout < now - last_read_ms l ->
  len (b64encode payload) <= HW_MTU ->
  b64decode (b64encode payload) = Some payload ->
  parser_state (fst (loop_body l (NoInput now))) = (false, false, []) /\
  snd (loop_body l (NoInput now)) = None /\
  let evs := NoInput now :: rx_from clock i (wire_frame (b64encode payload)) in
  read_loop l evs self =
  (Returned (run l evs),
   {| online := online self; rxb := rxb self + len payload; txb := txb self;
      inbound := inbound self ++ [payload];
      port_writes := port_writes self;
      error_log := error_log self ++ owner_errors payload |}).
Proof.
  intros Hne Hlate Hle Hdec.
  pose proof (no_input_stale l now Hne Hlate) as Hreset.
  rewrite Hreset. repeat split.
  cbn [read_loop run]. unfold bind at 1, read_loop_iter.
  rewrite Hreset. cbn [fst]. unfold ret at 1.
  rewrite read_loop_wire_frame by (reflexivity || assumption).
  rewrite (process_incoming_decoded _ payload self Hdec). reflexivity.
Qed.

Lemma stale_frame_discarded_witness :
  let l := run (initial 0) [Rx 0x7E 10; Rx 0x51 20; Rx 0x7D 30] in
  let evs := NoInput 131 ::
             rx_from Z.of_nat 200 (wire_frame (Base64.encode [0x41; 0x42; 0x43])) in
  (in_frame l = true /\ escape l = true /\ data_buffer l = [0x51]) /\
  parser_state (fst (loop_body l (NoInput 131))) = (false, false, []) /\
  inbound (snd (@read_loop python_port l evs fresh_iface)) = [[0x41; 0x42; 0x43]].
Proof.
  split; [repeat split|].
  destruct (@stale_frame_discarded python_port
              (run (initial 0) [Rx 0x7E 10; Rx 0x51 20; Rx 0x7D 30])
              131 Z.of_nat 200%nat fresh_iface [0x41; 0x42; 0x43])
    as (Hreset & _ & Hrun).
  - discriminate.
  - reflexivity.
  - cbv. discriminate.
  - reflexivity.
  - split; [exact Hreset|].
    exact (f_equal (fun r => inbound (snd r)) Hrun).
Defined.

(** What [process_outgoing] does on a short write. *)
Lemma process_outgoing_short {ext : Collaborators} data self written :
  online self = true ->
  serial_write (wire_frame (b64encode data)) = Returned written ->
  written <> len (wire_frame (b64encode data)) ->
  process_outgoing data self =
  (Raised (ShortWrite written (len (wire_frame (b64encode data)))),
   {| online := online self; rxb := rxb self; txb := txb self + len data;
      inbound := inbound self;
      port_writes := port_writes self ++ [wire_frame (b64encode data)];
      error_log := error_log self
                   ++ [ShortWrite written (len (wire_frame (b64encode data)))] |}).
Proof.
  intros Hon Hwr Hne.
  destruct self as [on rx tx inb pw el]. cbn [online] in Hon. subst on.
  unfold process_outgoing, bind at 1, get. cbn [online].
  unfold try_except, bind, self_serial_write.
  fold (wire_frame (b64encode data)). rewrite Hwr.
  cbn [add_txb modify].
  destruct (Z.eqb_spec written (len (wire_frame (b64encode data))));
    [contradiction|reflexivity].
Qed.

(** C7: while the interface is online, [process_outgoing] passes to the
    port's [write] exactly FLAG, then [escape] of the base64 encoding of
    the payload, then FLAG, in one call; while it is not online it
    returns without writing or changing anything. *)
Theorem process_outgoing_writes_frame {ext : Collaborators} data self :
  (online self = true ->
   port_writes (snd (process_outgoing data self)) =
   port_writes self ++ [[HDLC.FLAG] ++ HDLC.escape (b64encode data) ++ [HDLC.FLAG]]) /\
  (online self = false -> process_outgoing data self = (Returned tt, self)).
Proof.
  split; intros Hon; unfold process_outgoing, bind at 1, get; rewrite Hon;
    [|reflexivity].
  unfold try_except, bind, self_serial_write.
  destruct (serial_write _) as [written|e]; [|reflexivity].
  cbn [add_txb modify].
  destruct (negb _); reflexivity.
Qed.

Lemma process_outgoing_writes_frame_witness :
  port_writes (snd (@process_outgoing good_port [0x41; 0x42; 0x43] fresh_iface))
    = [] ++ [[0x7E; 81; 85; 74; 68; 0x7E]] /\
  @process_outgoing good_port [0x41; 0x42; 0x43]
    {| online := false; rxb := 0; txb := 0; inbound := [];
       port_writes := []; error_log := [] |}
  = (Returned tt,
     {| online := false; rxb := 0; txb := 0; inbound := [];
        port_writes := []; error_log := [] |}).
Proof.
  split.
  - apply (proj1 (@process_outgoing_writes_frame good_port [0x41; 0x42; 0x43]
                    fresh_iface)).
    reflexivity.
  - apply (proj2 (@process_outgoing_writes_frame good_port [0x41; 0x42; 0x43]
                    {| online := false; rxb := 0; txb := 0; inbound := [];
                       port_writes := []; error_log := [] |})).
    reflexivity.
Defined.

(** C8: when the port's [write] returns a count different from the
    length of the framed data, in particular a smaller one,
    [process_outgoing] ends by raising the error to its caller, and
    [online] is what it was. *)
Theorem short_write_raises {ext : Collaborators} data self written :
  online self = true ->
  serial_write ([HDLC.FLAG] ++ HDLC.escape (b64encode data) ++ [HDLC.FLAG])
    = Returned written ->
  written <> len ([HDLC.FLAG] ++ HDLC.escape (b64encode data) ++ [HDLC.FLAG]) ->
  fst (process_outgoing data self) =
    Raised (ShortWrite written
              (len ([HDLC.FLAG] ++ HDLC.escape (b64encode data) ++ [HDLC.FLAG]))) /\
  online (snd (process_outgoing data self)) = online self.
Proof.
  intros Hon Hwr Hne.
  rewrite (process_outgoing_short data self written Hon Hwr Hne).
  split; reflexivity.
Qed.

Lemma short_write_raises_witness :
  fst (@process_outgoing short_port [0x41; 0x42; 0x43] fresh_iface)
    = Raised (ShortWrite 4 6) /\
  online (snd (@process_outgoing short_port [0x41; 0x42; 0x43] fresh_iface)) = true.
Proof.
  apply (@short_write_raises short_port [0x41; 0x42; 0x43] fresh_iface 4).
  - reflexivity.
  - reflexivity.
  - discriminate.
Defined.




(** C10: on a short write [txb] has grown by the length of the payload,
    as it is before encoding, although [process_outgoing] raises. *)
Theorem short_write_counts_payload {ext : Collaborators} data self written :
  online self = true ->
  serial_write ([HDLC.FLAG] ++ HDLC.escape (b64encode data) ++ [HDLC.FLAG])
    = Returned written ->
  written <> len ([HDLC.FLAG] ++ HDLC.escape (b64encode data) ++ [HDLC.FLAG]) ->
  (exists e, fst (process_outgoing data self) = Raised e) /\
  txb (snd (process_outgoing data self)) = txb self + len data.
Proof.
  intros Hon Hwr Hne.
  rewrite (process_outgoing_short data self written Hon Hwr Hne).
  split; [eexists|]; reflexivity.
Qed.

Lemma short_write_counts_payload_witness :
  (exists e, fst (@process_outgoing short_port [0x41; 0x42; 0x43; 0x44] fresh_iface)
             = Raised e) /\
  txb (snd (@process_outgoing short_port [0x41; 0x42; 0x43; 0x44] fresh_iface))
  = 0 + len [0x41; 0x42; 0x43; 0x44].
Proof.
  apply (@short_write_counts_payload short_port [0x41; 0x42; 0x43; 0x44]
           fresh_iface 4).
  - reflexivity.
  - reflexivity.
  - discriminate.
Defined.

(** ** Further properties of [HDLC.escape] *)

Lemma stuffed_inj b1 b2 e1 e2 :
  stuffed b1 ++ e1 = stuffed b2 ++ e2 -> b1 = b2 /\ e1 = e2.
Proof.
  unfold stuffed.
  destruct (Z.eqb_spec b1 HDLC.ESC) as [->|H1], (Z.eqb_spec b2 HDLC.ESC) as [->|H2];
    [ intros H; injection H; auto | | | ].
  - destruct (Z.eqb_spec b2 HDLC.FLAG) as [->|H3]; intros H.
    + discriminate H.
    + injection H as H _. congruence.
  - destruct (Z.eqb_spec b1 HDLC.FLAG) as [->|H3]; intros H.
    + discriminate H.
    + injection H as H _. congruence.
  - destruct (Z.eqb_spec b1 HDLC.FLAG) as [->|H3],
             (Z.eqb_spec b2 HDLC.FLAG) as [->|H4]; intros H.
    + injection H; auto.
    + injection H as H _. congruence.
    + injection H as H _. congruence.
    + injection H; auto.
Qed.

Lemma stuffed_length b :
  len (stuffed b) =
  1 + (if b =? HDLC.ESC then 1 else 0) + (if b =? HDLC.FLAG then 1 else 0).
Proof.
  unfold stuffed.
  destruct (Z.eqb_spec b HDLC.ESC) as [->|]; [reflexivity|].
  destruct (Z.eqb_spec b HDLC.FLAG); reflexivity.
Qed.

Lemma len_app {A} (xs ys : list A) : len (xs ++ ys) = len xs + len ys.
Proof. unfold len. rewrite length_app. lia. Qed.

Lemma len_cons {A} (x : A) (xs : list A) : len (x :: xs) = 1 + len xs.
Proof. unfold len. cbn [length]. lia. Qed.

Lemma escape_length_count y :
  len (HDLC.escape y) =
  len y + Z.of_nat (count_occ Z.eq_dec y HDLC.ESC)
        + Z.of_nat (count_occ Z.eq_dec y HDLC.FLAG).
Proof.
  induction y as [|b y IH]; [reflexivity|].
  rewrite escape_cons, len_app, stuffed_length, IH, len_cons.
  cbn [count_occ].
  destruct (Z.eqb_spec b HDLC.ESC) as [He|He], (Z.eqb_spec b HDLC.FLAG) as [Hf|Hf];
    try (exfalso; rewrite He in Hf; discriminate Hf);
    repeat match goal with
      | |- context [Z.eq_dec ?a ?c] => destruct (Z.eq_dec a c); try congruence
      end; lia.
Qed.

Lemma escape_no_flag y : ~ In HDLC.FLAG (HDLC.escape y).
Proof.
  induction y as [|b y IH]; [intros []|].
  rewrite escape_cons. intros H. apply in_app_or in H as [H|H].
  - exact (stuffed_no_flag b H).
  - exact (IH H).
Qed.

(** X1: the output of [HDLC.escape] never contains the flag octet, so
    escaped data cannot end a frame early. *)
Theorem escaped_data_has_no_flag y :
  Forall (fun b => b <> HDLC.FLAG) (HDLC.escape y).
Proof.
  apply Forall_forall. intros b Hb ->. exact (escape_no_flag y Hb).
Qed.

(** X2: [HDLC.escape] is injective: two payloads with the same escaped
    form are the same payload. *)
Theorem escape_injective y1 y2 : HDLC.escape y1 = HDLC.escape y2 -> y1 = y2.
Proof.
  revert y2. induction y1 as [|b1 y1 IH]; intros [|b2 y2] H.
  - reflexivity.
  - rewrite escape_cons, escape_nil in H. unfold stuffed in H.
    destruct (b2 =? HDLC.ESC); [discriminate|].
    destruct (b2 =? HDLC.FLAG); discriminate.
  - rewrite escape_cons, escape_nil in H. unfold stuffed in H.
    destruct (b1 =? HDLC.ESC); [discriminate|].
    destruct (b1 =? HDLC.FLAG); discriminate.
  - rewrite !escape_cons in H. apply stuffed_inj in H as [-> H].
    f_equal. apply IH, H.
Qed.

Lemma escape_injective_witness : [0x7E; 0x41] = [0x7E; 0x41].
Proof. apply (escape_injective [0x7E; 0x41] [0x7E; 0x41]). reflexivity. Defined.

(** X3: [HDLC.escape] lengthens the data by one byte for each flag or
    escape octet in it; so the result has between [len data] and
    [2 * len data] bytes. *)
Theorem escape_length y :
  len (HDLC.escape y) =
    len y + Z.of_nat (count_occ Z.eq_dec y HDLC.ESC)
          + Z.of_nat (count_occ Z.eq_dec y HDLC.FLAG) /\
  len y <= len (HDLC.escape y) <= 2 * len y.
Proof.
  split; [apply escape_length_count|].
  induction y as [|b y IH]; [cbv; split; discriminate|].
  rewrite escape_cons, len_app, stuffed_length, len_cons.
  destruct (Z.eqb_spec b HDLC.ESC) as [He|He], (Z.eqb_spec b HDLC.FLAG) as [Hf|Hf];
    try (exfalso; rewrite He in Hf; discriminate Hf); lia.
Qed.

(** X4: [HDLC.escape] leaves the data as it is exactly when the data
    contains neither the flag nor the escape octet. *)
Theorem escape_fixed_iff y :
  HDLC.escape y = y <-> ~ In HDLC.ESC y /\ ~ In HDLC.FLAG y.
Proof.
  split.
  - intros H. pose proof (escape_length_count y) as Hl. rewrite H in Hl.
    split; apply (count_occ_not_In Z.eq_dec); lia.
  - intros [He Hf]. induction y as [|b y IH]; [reflexivity|].
    rewrite escape_cons, IH.
    + unfold stuffed.
      destruct (Z.eqb_spec b HDLC.ESC) as [->|]; [exfalso; apply He; now left|].
      destruct (Z.eqb_spec b HDLC.FLAG) as [->|]; [exfalso; apply Hf; now left|].
      reflexivity.
    + intros H; apply He; now right.
    + intros H; apply Hf; now right.
Qed.

Lemma escape_fixed_iff_witness : HDLC.escape [0x41; 0x5E; 0x5D] = [0x41; 0x5E; 0x5D].
Proof.
  apply (proj2 (escape_fixed_iff [0x41; 0x5E; 0x5D])).
  split; cbv; intuition discriminate.
Defined.

(** X5: [HDLC.escape] works byte by byte: escaping a concatenation is
    concatenating the escaped parts. *)
Theorem escape_app y1 y2 :
  HDLC.escape (y1 ++ y2) = HDLC.escape y1 ++ HDLC.escape y2.
Proof.
  induction y1 as [|b y1 IH]; [reflexivity|].
  cbn [app]. rewrite !escape_cons, IH, app_assoc. reflexivity.
Qed.

(** ** Further properties of the deframer *)

Lemma rx_sets_last_read l b now : last_read_ms (fst (loop_body l (Rx b now))) = now.
Proof.
  unfold loop_body. cbn [in_frame escape data_buffer last_read_ms].
  destruct (in_frame l && (b =? HDLC.FLAG)); [reflexivity|].
  destruct (b =? HDLC.FLAG); [reflexivity|].
  destruct (in_frame l && (len (data_buffer l) <? HW_MTU)); [|reflexivity].
  destruct (b =? HDLC.ESC); [reflexivity|].
  destruct (escape l); reflexivity.
Qed.

Lemma no_input_fresh l now :
  now - last_read_ms l <= timeout -> loop_body l (NoInput now) = (l, None).
Proof.
  intros H. unfold loop_body.
  destruct (Z.ltb_spec timeout (now - last_read_ms l)); [lia|].
  now rewrite andb_false_r.
Qed.

Lemma no_input_empty l now :
  data_buffer l = [] -> loop_body l (NoInput now) = (l, None).
Proof. intros H. unfold loop_body. rewrite H. reflexivity. Qed.

Lemma loop_body_hands_buffer l ev buf :
  snd (loop_body l ev) = Some buf -> buf = data_buffer l.
Proof.
  destruct ev as [b now|now]; unfold loop_body;
    cbn [in_frame escape data_buffer last_read_ms].
  - destruct (in_frame l && (b =? HDLC.FLAG)); [cbn; congruence|].
    destruct (b =? HDLC.FLAG); [discriminate|].
    destruct (in_frame l && (len (data_buffer l) <? HW_MTU)); [|discriminate].
    destruct (b =? HDLC.ESC); [discriminate|].
    destruct (escape l); discriminate.
  - destruct ((0 <? len (data_buffer l)) && (timeout <? now - last_read_ms l));
      discriminate.
Qed.

(** What a read does to the parser depends on the parser state only. *)
Lemma rx_parser_only l1 l2 b t1 t2 :
  parser_state l1 = parser_state l2 ->
  parser_state (fst (loop_body l1 (Rx b t1))) =
  parser_state (fst (loop_body l2 (Rx b t2))) /\
  snd (loop_body l1 (Rx b t1)) = snd (loop_body l2 (Rx b t2)).
Proof.
  unfold parser_state. intros H. injection H as Hin Hesc Hbuf.
  unfold loop_body. cbn [in_frame escape data_buffer last_read_ms].
  rewrite Hin, Hesc, Hbuf.
  destruct (in_frame l2 && (b =? HDLC.FLAG)); [split; reflexivity|].
  destruct (b =? HDLC.FLAG); [split; reflexivity|].
  destruct (in_frame l2 && (len (data_buffer l2) <? HW_MTU));
    [|split; reflexivity].
  destruct (b =? HDLC.ESC); [split; reflexivity|].
  destruct (escape l2); split; reflexivity.
Qed.

Lemma received_reads evs : received (reads evs) = received evs.
Proof.
  induction evs as [|[b now|now] evs IH]; cbn; [reflexivity| |exact IH].
  now rewrite IH.
Qed.

Lemma received_rx_from clock i data : received (rx_from clock i data) = data.
Proof.
  revert i. induction data as [|b data IH]; intros i; cbn; [reflexivity|].
  now rewrite IH.
Qed.

Lemma received_app evs1 evs2 :
  received (evs1 ++ evs2) = received evs1 ++ received evs2.
Proof.
  induction evs1 as [|[b now|now] evs1 IH]; cbn; [reflexivity| |exact IH].
  now rewrite IH.
Qed.

(** Iterations without input that come in time change nothing. *)
Lemma fresh_polls_skipped evs : forall l,
  polls_fresh (last_read_ms l) evs = true ->
  run l evs = run l (reads evs) /\ frames l evs = frames l (reads evs).
Proof.
  induction evs as [|[b now|now] evs IH]; intros l Hfresh.
  - split; reflexivity.
  - cbn [polls_fresh] in Hfresh. cbn [reads run frames].
    destruct (IH (fst (loop_body l (Rx b now)))) as [Hr Hf];
      [now rewrite rx_sets_last_read|].
    destruct (loop_body l (Rx b now)) as [l' [buf|]]; cbn [fst] in *;
      rewrite Hr, Hf; split; reflexivity.
  - cbn [polls_fresh] in Hfresh. apply andb_true_iff in Hfresh as [Hnow Hfresh].
    apply Z.leb_le in Hnow. cbn [reads run frames].
    rewrite (no_input_fresh l now Hnow). cbn [fst]. apply IH, Hfresh.
Qed.

Lemma reads_length evs : (length (reads evs) <= length evs)%nat.
Proof. induction evs as [|[b now|now] evs IH]; cbn; lia. Qed.

Lemma reads_poll_not_fixed now evs : reads (NoInput now :: evs) <> NoInput now :: evs.
Proof.
  cbn [reads]. intros H. apply (f_equal (@length event)) in H. cbn in H.
  pose proof (reads_length evs). lia.
Qed.

(** On reads alone, the parser and the buffers handed over depend on the
    bytes and not on when they are read. *)
Lemma reads_by_bytes evs1 : forall evs2 l1 l2,
  reads evs1 = evs1 -> reads evs2 = evs2 ->
  received evs1 = received evs2 ->
  parser_state l1 = parser_state l2 ->
  frames l1 evs1 = frames l2 evs2 /\
  parser_state (run l1 evs1) = parser_state (run l2 evs2).
Proof.
  induction evs1 as [|[b1 t1|t1] evs1 IH]; intros [|[b2 t2|t2] evs2] l1 l2 H1 H2 Hrec Hps;
    try (exfalso; exact (reads_poll_not_fixed _ _ H1));
    try (exfalso; exact (reads_poll_not_fixed _ _ H2));
    cbn [reads received] in *; try discriminate.
  - split; [reflexivity|exact Hps].
  - injection H1 as H1. injection H2 as H2. injection Hrec as -> Hrec.
    destruct (rx_parser_only l1 l2 b2 t1 t2 Hps) as [Hps' Hcall].
    cbn [frames run].
    destruct (IH evs2 _ _ H1 H2 Hrec Hps') as [Hf Hr].
    destruct (loop_body l1 (Rx b2 t1)) as [l1' c1], (loop_body l2 (Rx b2 t2)) as [l2' c2].
    cbn [fst snd] in *. subst c2. rewrite Hf, Hr. split; reflexivity.
Qed.

Lemma reads_rx_from clock i data : reads (rx_from clock i data) = rx_from clock i data.
Proof.
  revert i. induction data as [|b data IH]; intros i; cbn; [reflexivity|].
  now rewrite IH.
Qed.

Lemma reads_idem evs : reads (reads evs) = reads evs.
Proof.
  induction evs as [|[b now|now] evs IH]; cbn; [reflexivity| |exact IH].
  now rewrite IH.
Qed.

(** Whole frames read one after the other from outside a frame. *)
Lemma rx_wire_frames ys : forall l clock i,
  in_frame l = false -> escape l = false ->
  frames l (rx_from clock i (concat (map wire_frame ys))) =
    map (firstn (Z.to_nat HW_MTU)) ys /\
  in_frame (run l (rx_from clock i (concat (map wire_frame ys)))) = false /\
  escape (run l (rx_from clock i (concat (map wire_frame ys)))) = false.
Proof.
  induction ys as [|y ys IH]; intros l clock i Hout Hesc; cbn [map concat].
  - repeat split; assumption.
  - rewrite rx_from_app, frames_app, run_app.
    destruct (rx_wire_frame y l clock i Hout Hesc) as [Hf Hs].
    set (l1 := run l (rx_from clock i (wire_frame y))) in *.
    unfold parser_state in Hs. injection Hs as Hin1 Hesc1 _.
    destruct (IH l1 clock (i + length (wire_frame y))%nat Hin1 Hesc1) as (Hf2 & Hin2 & Hesc2).
    rewrite Hf, Hf2. repeat split; assumption.
Qed.

(** X6: complete frames arriving one after the other, starting outside
    a frame with no escape pending and with no gap longer than [timeout]
    seen by the loop, are handed to [process_incoming] one buffer per
    frame, in the order of arrival, each payload cut to its first
    [HW_MTU] bytes. *)
Theorem stream_of_frames l evs ys :
  in_frame l = false -> escape l = false ->
  polls_fresh (last_read_ms l) evs = true ->
  received evs = concat (map wire_frame ys) ->
  frames l evs = map (firstn (Z.to_nat HW_MTU)) ys.
Proof.
  intros Hout Hesc Hfresh Hrec.
  destruct (fresh_polls_skipped evs l Hfresh) as [_ ->].
  destruct (reads_by_bytes (reads evs)
              (rx_from (fun _ => 0) 0 (concat (map wire_frame ys))) l l) as [-> _].
  - apply reads_idem.
  - apply reads_rx_from.
  - now rewrite received_reads, received_rx_from.
  - reflexivity.
  - apply rx_wire_frames; assumption.
Qed.

Lemma stream_of_frames_witness :
  frames (initial 0)
    ([Rx 0x7E 10; Rx 0x41 20; NoInput 100; Rx 0x7D 110; Rx 0x5E 120; Rx 0x7E 130;
      NoInput 200; Rx 0x7E 210; Rx 0x42 220; Rx 0x7E 230])
  = map (firstn (Z.to_nat HW_MTU)) [[0x41; 0x7E]; [0x42]].
Proof.
  apply (stream_of_frames (initial 0)
           [Rx 0x7E 10; Rx 0x41 20; NoInput 100; Rx 0x7D 110; Rx 0x5E 120; Rx 0x7E 130;
            NoInput 200; Rx 0x7E 210; Rx 0x42 220; Rx 0x7E 230]
           [[0x41; 0x7E]; [0x42]]); reflexivity.
Defined.

(** X7: bytes that arrive outside a frame, before its opening flag, do
    not reach the frame: noise without a flag followed by a complete
    frame gives that frame alone. *)
Theorem noise_before_frame l noise y clock i :
  in_frame l = false -> escape l = false -> ~ In HDLC.FLAG noise ->
  frames l (rx_from clock i (noise ++ wire_frame y)) = [firstn (Z.to_nat HW_MTU) y].
Proof.
  intros Hout Hesc Hno.
  rewrite rx_from_app, frames_app.
  destruct (rx_junk noise l clock i Hout Hno) as [-> Hs].
  set (l1 := run l (rx_from clock i noise)) in *.
  unfold parser_state in Hs. injection Hs as Hin1 Hesc1 _.
  apply rx_wire_frame; congruence.
Qed.

Lemma noise_before_frame_witness :
  frames (initial 0) (rx_from Z.of_nat 0 ([0x0D; 0x0A; 0x7D] ++ wire_frame [0x41; 0x42]))
  = [firstn (Z.to_nat HW_MTU) [0x41; 0x42]].
Proof.
  apply (noise_before_frame (initial 0) [0x0D; 0x0A; 0x7D] [0x41; 0x42] Z.of_nat 0).
  - reflexivity.
  - reflexivity.
  - cbv. intuition discriminate.
Defined.

(** X8: iterations without input change nothing as long as none comes
    more than [timeout] after the read before it: the locals and the
    buffers handed over are those of the reads alone. *)
Theorem fresh_polls_transparent l evs :
  polls_fresh (last_read_ms l) evs = true ->
  run l evs = run l (reads evs) /\ frames l evs = frames l (reads evs).
Proof. apply fresh_polls_skipped. Qed.

Lemma fresh_polls_transparent_witness :
  let evs := [NoInput 50; Rx 0x7E 60; NoInput 160; Rx 0x41 170; NoInput 270; Rx 0x7E 300] in
  run (initial 0) evs = run (initial 0) (reads evs) /\
  frames (initial 0) evs = frames (initial 0) (reads evs).
Proof.
  apply (fresh_polls_transparent (initial 0)
           [NoInput 50; Rx 0x7E 60; NoInput 160; Rx 0x41 170; NoInput 270; Rx 0x7E 300]).
  reflexivity.
Defined.

(** X12: without idle iterations in between, the times at which the
    bytes are read play no part: the same bytes give the same buffers
    handed over and the same parser state. *)
Theorem arrival_times_irrelevant l data clock1 clock2 i1 i2 :
  frames l (rx_from clock1 i1 data) = frames l (rx_from clock2 i2 data) /\
  parser_state (run l (rx_from clock1 i1 data)) =
  parser_state (run l (rx_from clock2 i2 data)).
Proof.
  apply reads_by_bytes; try apply reads_rx_from.
  - now rewrite !received_rx_from.
  - reflexivity.
Qed.

(** Every buffer handed over is within the bound the buffer keeps. *)
Lemma frames_bounded evs : forall l,
  len (data_buffer l) <= HW_MTU ->
  Forall (fun f => len f <= HW_MTU) (frames l evs).
Proof.
  induction evs as [|ev evs IH]; intros l Hle; cbn [frames]; [constructor|].
  pose proof (loop_body_bounded l ev Hle) as Hle'.
  pose proof (loop_body_hands_buffer l ev) as Hbuf.
  destruct (loop_body l ev) as [l' [buf|]]; cbn [fst snd] in *.
  - constructor; [rewrite (Hbuf buf eq_refl); exact Hle | apply IH, Hle'].
  - apply IH, Hle'.
Qed.

(** X11: whatever [read_loop] reads, every buffer it hands to
    [process_incoming] has at most [HW_MTU] = 700 bytes. *)
Theorem handed_frames_bounded now evs :
  Forall (fun f => len f <= 700) (frames (initial now) evs).
Proof. apply (frames_bounded evs (initial now)). cbv. discriminate. Qed.

(** *** An empty buffer is never timed out *)

Lemma received_split evs : forall a b,
  received evs = a ++ b ->
  exists e1 e2, evs = e1 ++ e2 /\ received e1 = a /\ received e2 = b.
Proof.
  induction evs as [|[x t|t] evs IH]; intros a b H; cbn [received] in H.
  - symmetry in H. apply app_eq_nil in H as [-> ->]. now exists [], [].
  - destruct a as [|x' a].
    + exists [], (Rx x t :: evs). cbn in *. now subst b.
    + injection H as -> H. destruct (IH a b H) as (e1 & e2 & -> & <- & <-).
      now exists (Rx x' t :: e1), e2.
  - destruct (IH a b H) as (e1 & e2 & -> & <- & <-).
    now exists (NoInput t :: e1), e2.
Qed.

Lemma received_head evs : forall b rest,
  received evs = b :: rest ->
  exists polls t e, evs = polls ++ Rx b t :: e /\ received polls = [] /\ received e = rest.
Proof.
  induction evs as [|[x t|t] evs IH]; intros b rest H; cbn [received] in H.
  - discriminate.
  - injection H as -> <-. now exists [], t, evs.
  - destruct (IH b rest H) as (polls & t' & e & -> & Hp & <-).
    now exists (NoInput t :: polls), t', e.
Qed.

Lemma polls_empty_buffer evs : forall l,
  received evs = [] -> data_buffer l = [] ->
  run l evs = l /\ frames l evs = [].
Proof.
  induction evs as [|[x t|t] evs IH]; intros l Hrec Hbuf; cbn [received] in Hrec.
  - split; reflexivity.
  - discriminate.
  - cbn [run frames]. rewrite (no_input_empty l t Hbuf). cbn [fst].
    apply IH; assumption.
Qed.

Lemma idle_empty_drops evs : forall l,
  in_frame l = false -> data_buffer l = [] -> ~ In HDLC.FLAG (received evs) ->
  frames l evs = [] /\ in_frame (run l evs) = false /\ data_buffer (run l evs) = [].
Proof.
  induction evs as [|[x t|t] evs IH]; intros l Hout Hbuf Hno; cbn [received] in Hno.
  - repeat split; assumption.
  - assert (Hx : x <> HDLC.FLAG) by (intros ->; apply Hno; now left).
    cbn [run frames]. rewrite (rx_idle l x t Hout Hx). cbn [fst].
    apply IH; [reflexivity | exact Hbuf | intros H; apply Hno; now right].
  - cbn [run frames]. rewrite (no_input_empty l t Hbuf). cbn [fst].
    apply IH; assumption.
Qed.

(** Inside a frame with an empty buffer, a complete frame only moves
    the deframer out of the frame and back in. *)
Lemma armed_frame_lost y evs l :
  in_frame l = true -> data_buffer l = [] -> received evs = wire_frame y ->
  frames l evs = [[]] /\ in_frame (run l evs) = true /\ data_buffer (run l evs) = [].
Proof.
  intros Hin Hbuf Hrec.
  change (wire_frame y) with (HDLC.FLAG :: (HDLC.escape y ++ [HDLC.FLAG])) in Hrec.
  destruct (received_head evs _ _ Hrec) as (p1 & t1 & e & -> & Hp1 & He).
  destruct (received_split e _ _ He) as (body & tl & -> & Hbody & Htl).
  destruct (received_head tl _ _ Htl) as (p2 & t2 & p3 & -> & Hp2 & Hp3).
  destruct (polls_empty_buffer p1 l Hp1 Hbuf) as [Hr1 Hf1].
  rewrite frames_app, run_app, Hr1, Hf1. cbn [app frames run].
  rewrite (rx_close l t1 Hin), Hbuf. cbn [fst].
  set (l1 := {| in_frame := false; escape := escape l; data_buffer := [];
                last_read_ms := t1 |}).
  destruct (idle_empty_drops body l1 eq_refl eq_refl) as (Hf2 & Hin2 & Hbuf2).
  { rewrite Hbody. apply escape_no_flag. }
  rewrite frames_app, run_app, Hf2. cbn [app].
  set (l2 := run l1 body) in *.
  destruct (polls_empty_buffer p2 l2 Hp2 Hbuf2) as [Hr3 Hf3].
  rewrite frames_app, run_app, Hr3, Hf3. cbn [app frames run].
  rewrite (rx_open l2 t2 Hin2). cbn [fst].
  set (l3 := {| in_frame := true; escape := escape l2; data_buffer := [];
                last_read_ms := t2 |}).
  destruct (polls_empty_buffer p3 l3 Hp3 eq_refl) as [Hr4 Hf4].
  rewrite Hr4, Hf4. repeat split.
Qed.

(** Inside a frame with an empty buffer, complete frames are lost one
    after the other. *)
Lemma armed_frames_lost ys : forall l evs,
  in_frame l = true -> data_buffer l = [] ->
  received evs = concat (map wire_frame ys) ->
  frames l evs = map (fun _ => []) ys /\
  in_frame (run l evs) = true /\ data_buffer (run l evs) = [].
Proof.
  induction ys as [|y ys IH]; intros l evs Hin Hbuf Hrec; cbn [map concat] in *.
  - destruct (polls_empty_buffer evs l Hrec Hbuf) as [-> ->]. repeat split; assumption.
  - destruct (received_split evs _ _ Hrec) as (e1 & e2 & -> & H1 & H2).
    destruct (armed_frame_lost y e1 l Hin Hbuf H1) as (Hf1 & Hin1 & Hbuf1).
    destruct (IH (run l e1) e2 Hin1 Hbuf1 H2) as (Hf2 & Hin2 & Hbuf2).
    rewrite frames_app, run_app, Hf1, Hf2. repeat split; assumption.
Qed.

(** X9: the timeout never clears an empty buffer, so a deframer left
    inside a frame with an empty buffer (as after a single stray flag)
    stays there through any silence; every complete frame that follows,
    with idle iterations anywhere, is lost: each hands one empty buffer
    to [process_incoming] and leaves the deframer as it was. *)
Theorem stray_flag_loses_frames ys l evs :
  in_frame l = true -> data_buffer l = [] ->
  received evs = concat (map wire_frame ys) ->
  frames l evs = map (fun _ => []) ys /\
  in_frame (run l evs) = true /\ data_buffer (run l evs) = [].
Proof. apply armed_frames_lost. Qed.

Lemma stray_flag_loses_frames_witness :
  let l := run (initial 0) [Rx 0x7E 0; NoInput 60000] in
  let evs := [Rx 0x7E 60010; Rx 0x41 60020; Rx 0x7E 60030; NoInput 90000;
              Rx 0x7E 90010; Rx 0x42 90020; Rx 0x7E 90030] in
  frames l evs = map (fun _ => []) [[0x41]; [0x42]] /\
  in_frame (run l evs) = true /\ data_buffer (run l evs) = [].
Proof.
  apply (stray_flag_loses_frames [[0x41]; [0x42]]
           (run (initial 0) [Rx 0x7E 0; NoInput 60000])
           [Rx 0x7E 60010; Rx 0x41 60020; Rx 0x7E 60030; NoInput 90000;
            Rx 0x7E 90010; Rx 0x42 90020; Rx 0x7E 90030]); reflexivity.
Defined.

(** X10: the escape flag is not cleared when a frame is closed or
    opened: if it is still set when a frame starts, the first byte of
    that frame is unmasked, the rest is read as usual. *)
Theorem pending_escape_carries_over l b y clock i :
  in_frame l = false -> escape l = true ->
  frames l (rx_from clock i (wire_frame (b :: y))) =
  [firstn (Z.to_nat HW_MTU) (unmask b :: y)].
Proof.
  intros Hout Hesc. unfold wire_frame. rewrite escape_cons.
  change ([HDLC.FLAG] ++ (stuffed b ++ HDLC.escape y) ++ [HDLC.FLAG])
    with (HDLC.FLAG :: ((stuffed b ++ HDLC.escape y) ++ [HDLC.FLAG])).
  cbn [rx_from frames]. rewrite (rx_open l (clock i) Hout).
  rewrite <- app_assoc, rx_from_app, frames_app.
  set (l0 := {| in_frame := true; escape := escape l; data_buffer := [];
                last_read_ms := clock i |}).
  assert (Hfirst : frames l0 (rx_from clock (S i) (stuffed b)) = [] /\
                   parser_state (run l0 (rx_from clock (S i) (stuffed b)))
                   = (true, false, [unmask b])).
  { unfold stuffed.
    destruct (Z.eqb_spec b HDLC.ESC) as [->|He];
      [|destruct (Z.eqb_spec b HDLC.FLAG) as [->|Hf]]; cbn [rx_from frames run].
    - rewrite (rx_esc l0 _ eq_refl) by (cbv; reflexivity). cbn [fst].
      rewrite rx_store; cbn [in_frame escape data_buffer]; easy.
    - rewrite (rx_esc l0 _ eq_refl) by (cbv; reflexivity). cbn [fst].
      rewrite rx_store; cbn [in_frame escape data_buffer]; easy.
    - rewrite (rx_store l0 b _ eq_refl Hf He) by (cbv; reflexivity).
      cbn [fst escape l0]. rewrite Hesc. split; reflexivity. }
  destruct Hfirst as [-> Hs]. cbn [app].
  set (l1 := run l0 (rx_from clock (S i) (stuffed b))) in *.
  unfold parser_state in Hs. injection Hs as Hin1 Hesc1 Hbuf1.
  rewrite rx_from_app, frames_app.
  destruct (rx_escaped y l1 clock (S i + length (stuffed b))%nat Hin1 Hesc1) as [-> Hs2];
    [rewrite Hbuf1; cbv; discriminate|].
  set (l2 := run l1 _) in *.
  unfold parser_state in Hs2. injection Hs2 as Hin2 _ Hbuf2.
  cbn [app rx_from frames]. rewrite (rx_close l2 _ Hin2), Hbuf2, Hbuf1.
  reflexivity.
Qed.

Lemma pending_escape_carries_over_witness :
  let l := run (initial 0) (rx_from Z.of_nat 0 [0x7E; 0x41; 0x7D; 0x7E]) in
  frames l (rx_from Z.of_nat 4 (wire_frame [0x5E; 0x42])) =
  [firstn (Z.to_nat HW_MTU) [unmask 0x5E; 0x42]].
Proof.
  apply (pending_escape_carries_over
           (run (initial 0) (rx_from Z.of_nat 0 [0x7E; 0x41; 0x7D; 0x7E]))
           0x5E [0x42] Z.of_nat 4); reflexivity.
Defined.

(** X19: a frame whose end arrives late desynchronises the deframer.
    When the timeout has cleared a partial frame and the rest of that
    frame then arrives, its closing flag is taken for an opening flag;
    of the complete frames that follow, none is delivered: each hands
    over one empty buffer. *)
Theorem late_tail_desynchronises l now tail clock i evs ys :
  data_buffer l <> [] -> timeout < now - last_read_ms l ->
  ~ In HDLC.FLAG tail ->
  received evs = concat (map wire_frame ys) ->
  frames l (NoInput now :: rx_from clock i (tail ++ [HDLC.FLAG]) ++ evs) =
  map (fun _ => []) ys.
Proof.
  intros Hne Hlate Hno Hrec. cbn [frames].
  rewrite (no_input_stale l now Hne Hlate).
  set (l1 := {| in_frame := false; escape := false; data_buffer := [];
                last_read_ms := last_read_ms l |}).
  rewrite frames_app, rx_from_app, frames_app, run_app.
  destruct (rx_junk tail l1 clock i eq_refl Hno) as [-> Hs].
  set (l2 := run l1 (rx_from clock i tail)) in *.
  unfold parser_state in Hs. injection Hs as Hin2 _ _.
  cbn [app rx_from frames run]. rewrite (rx_open l2 _ Hin2). cbn [fst].
  apply armed_frames_lost; [reflexivity | reflexivity | exact Hrec].
Qed.

Lemma late_tail_desynchronises_witness :
  let l := run (initial 0) [Rx 0x7E 10; Rx 0x51 20; Rx 0x55 30] in
  frames l (NoInput 200 :: rx_from Z.of_nat 210 ([0x4A; 0x44] ++ [HDLC.FLAG])
              ++ [Rx 0x7E 300; Rx 0x51 310; Rx 0x7E 320])
  = map (fun _ => []) [[0x51]].
Proof.
  apply (late_tail_desynchronises
           (run (initial 0) [Rx 0x7E 10; Rx 0x51 20; Rx 0x55 30]) 200
           [0x4A; 0x44] Z.of_nat 210 [Rx 0x7E 300; Rx 0x51 310; Rx 0x7E 320] [[0x51]]).
  - discriminate.
  - reflexivity.
  - cbv. intuition discriminate.
  - reflexivity.
Defined.

(** ** Further properties of the packet paths *)







(** With an owner whose [inbound] raises, the payload is still counted
    in [rxb], the exception is logged and the loop goes on. *)
Example owner_exception_logged :
  @read_loop failing_owner (initial 0)
    (rx_from Z.of_nat 0 [0x7E; 81; 85; 74; 68; 0x7E; 0x7E; 81; 81; 61; 61; 0x7E])
    fresh_iface =
  (Returned {| in_frame := false; escape := false;
               data_buffer := [81; 81; 61; 61]; last_read_ms := 11 |},
   {| online := true; rxb := 4; txb := 0;
      inbound := [[0x41; 0x42; 0x43]; [0x41]]; port_writes := [];
      error_log := [OwnerError; OwnerError] |}).
Proof. reflexivity. Qed.

(** The three ways [process_outgoing] can end when the interface is
    online, by what the port's [write] does. *)
Lemma process_outgoing_online {ext : Collaborators} data self :
  online self = true ->
  let wire := wire_frame (b64encode data) in
  let sent := {| online := online self; rxb := rxb self; txb := txb self;
                 inbound := inbound self;
                 port_writes := port_writes self ++ [wire];
                 error_log := error_log self |} in
  let counted := {| online := online self; rxb := rxb self;
                    txb := txb self + len data; inbound := inbound self;
                    port_writes := port_writes self ++ [wire];
                    error_log := error_log self |} in
  process_outgoing data self =
  match serial_write wire with
  | Raised e =>
      (Raised e,
       {| online := online sent; rxb := rxb sent; txb := txb sent;
          inbound := inbound sent; port_writes := port_writes sent;
          error_log := error_log sent ++ [e] |})
  | Returned written =>
      if written =? len wire then (Returned tt, counted)
      else (Raised (ShortWrite written (len wire)),
            {| online := online counted; rxb := rxb counted; txb := txb counted;
               inbound := inbound counted; port_writes := port_writes counted;
               error_log := error_log counted ++ [ShortWrite written (len wire)] |})
  end.
Proof.
  intros Hon wire sent counted. subst sent counted.
  destruct self as [on rx tx inb pw el]. cbn [online] in Hon. subst on.
  unfold process_outgoing, bind at 1, get. cbn [online].
  unfold try_except, bind, self_serial_write. fold (wire_frame (b64encode data)).
  fold wire. destruct (serial_write wire) as [written|e]; [|reflexivity].
  cbn [add_txb modify]. destruct (written =? len wire); reflexivity.
Qed.

(** X15: when the port takes the whole frame, [process_outgoing]
    returns normally, [txb] has grown by the length of the payload as
    given, the frame is the one write made, and nothing is logged. *)
Theorem full_write_succeeds {ext : Collaborators} data self :
  online self = true ->
  serial_write (wire_frame (b64encode data)) =
    Returned (len (wire_frame (b64encode data))) ->
  process_outgoing data self =
  (Returned tt,
   {| online := online self; rxb := rxb self; txb := txb self + len data;
      inbound := inbound self;
      port_writes := port_writes self ++ [wire_frame (b64encode data)];
      error_log := error_log self |}).
Proof.
  intros Hon Hwr. rewrite (process_outgoing_online data self Hon). cbv zeta.
  rewrite Hwr, Z.eqb_refl. reflexivity.
Qed.

Lemma full_write_succeeds_witness :
  @process_outgoing good_port [0x41; 0x42; 0x43] fresh_iface =
  (Returned tt,
   {| online := true; rxb := 0; txb := 0 + len [0x41; 0x42; 0x43]; inbound := [];
      port_writes := [] ++ [wire_frame (Base64.encode [0x41; 0x42; 0x43])];
      error_log := [] |}).
Proof.
  apply (@full_write_succeeds good_port [0x41; 0x42; 0x43] fresh_iface); reflexivity.
Defined.

(** X16: when the port's [write] raises, [process_outgoing] logs the
    exception and raises it again; unlike after a short write, [txb] is
    what it was. *)
Theorem write_exception_reraised {ext : Collaborators} data self e :
  online self = true ->
  serial_write (wire_frame (b64encode data)) = Raised e ->
  process_outgoing data self =
  (Raised e,
   {| online := online self; rxb := rxb self; txb := txb self;
      inbound := inbound self;
      port_writes := port_writes self ++ [wire_frame (b64encode data)];
      error_log := error_log self ++ [e] |}).
Proof.
  intros Hon Hwr. rewrite (process_outgoing_online data self Hon). cbv zeta.
  rewrite Hwr. reflexivity.
Qed.

Lemma write_exception_reraised_witness :
  @process_outgoing dead_port [0x41; 0x42; 0x43] fresh_iface =
  (Raised SerialError,
   {| online := true; rxb := 0; txb := 0; inbound := [];
      port_writes := [] ++ [wire_frame (Base64.encode [0x41; 0x42; 0x43])];
      error_log := [] ++ [SerialError] |}).
Proof.
  apply (@write_exception_reraised dead_port [0x41; 0x42; 0x43] fresh_iface SerialError);
    reflexivity.
Defined.

(** X17: whatever the port does, [process_outgoing] leaves [online],
    [rxb] and the deliveries to the owner alone, calls [write] at most
    once, and raises exactly when it has logged an error: it either
    returns with the log unchanged or raises the exception it has just
    logged. *)
Theorem process_outgoing_frame_rule {ext : Collaborators} data self :
  let r := process_outgoing data self in
  online (snd r) = online self /\
  rxb (snd r) = rxb self /\
  inbound (snd r) = inbound self /\
  (port_writes (snd r) = port_writes self \/
   exists wire, port_writes (snd r) = port_writes self ++ [wire]) /\
  ((fst r = Returned tt /\ error_log (snd r) = error_log self) \/
   (exists e, fst r = Raised e /\ error_log (snd r) = error_log self ++ [e])).
Proof.
  cbv zeta. destruct (online self) eqn:Hon.
  - rewrite (process_outgoing_online data self Hon). cbv zeta.
    destruct (serial_write (wire_frame (b64encode data))) as [written|e];
      [destruct (written =? len (wire_frame (b64encode data)))|];
      cbn [fst snd online rxb inbound port_writes error_log];
      do 3 (split; [first [reflexivity | assumption]|]);
      (split; [right; eexists; reflexivity|]).
    + left. split; reflexivity.
    + right. eexists. split; reflexivity.
    + right. eexists. split; reflexivity.
  - unfold process_outgoing, bind, get. rewrite Hon. cbn [fst snd ret].
    do 3 (split; [first [reflexivity | assumption]|]).
    split; [now left | left; split; reflexivity].
Qed.

(** X18: what [process_outgoing] writes to the port, read byte by byte
    by [read_loop] as it starts at the other end, is delivered to the
    owner there as the payload that was sent, and counted in [rxb];
    this needs the encoded payload to fit in [HW_MTU] bytes and the
    decoder to invert the encoder on it. *)
Theorem loopback {ext : Collaborators} data sender receiver now clock i :
  online sender = true ->
  len (b64encode data) <= HW_MTU ->
  b64decode (b64encode data) = Some data ->
  let wire := last (port_writes (snd (process_outgoing data sender))) [] in
  read_loop (initial now) (rx_from clock i wire) receiver =
  (Returned (run (initial now) (rx_from clock i wire)),
   {| online := online receiver; rxb := rxb receiver + len data;
      txb := txb receiver; inbound := inbound receiver ++ [data];
      port_writes := port_writes receiver;
      error_log := error_log receiver ++ owner_errors data |}).
Proof.
  intros Hon Hle Hdec wire.
  assert (Hwire : wire = wire_frame (b64encode data)).
  { subst wire. rewrite (process_outgoing_online data sender Hon). cbv zeta.
    destruct (serial_write (wire_frame (b64encode data))) as [written|e];
      [destruct (written =? len (wire_frame (b64encode data)))|];
      cbn [snd port_writes]; apply last_last. }
  rewrite Hwire.
  rewrite (read_loop_wire_frame (b64encode data) (initial now) clock i receiver
             eq_refl eq_refl Hle).
  rewrite (process_incoming_decoded _ data receiver Hdec). reflexivity.
Qed.

Lemma loopback_witness :
  let wire := last (port_writes
                      (snd (@process_outgoing short_port [0x7E; 0x7D; 0x00] fresh_iface))) [] in
  @read_loop short_port (initial 0) (rx_from Z.of_nat 0 wire) fresh_iface =
  (Returned (run (initial 0) (rx_from Z.of_nat 0 wire)),
   {| online := true; rxb := 0 + len [0x7E; 0x7D; 0x00]; txb := 0;
      inbound := [] ++ [[0x7E; 0x7D; 0x00]]; port_writes := []; error_log := [] |}).
Proof.
  apply (@loopback short_port [0x7E; 0x7D; 0x00] fresh_iface fresh_iface 0 Z.of_nat 0%nat).
  - reflexivity.
  - cbv. discriminate.
  - reflexivity.
Defined.
